(** * Dual isosurface lookup table (ijkdualtable.h): a shallow embedding

    The table stores, for every +/- labelling of the vertices of a cube,
    the number of isosurface vertices, the bipolar cube edges and the
    isosurface vertex incident on the face dual to each bipolar edge.

    Conventions of the embedding.
    - [TABLE_INDEX] is a C++ [int]; it is a [Z] and every arithmetic
      result that the code stores in an [int], [long] or [unsigned char]
      is wrapped explicitly ([to_int], [to_long], [to_uchar]).
    - Array positions (vertex, edge and facet numbers) and loop counters
      are [nat]: a counter that runs up to a bound of its own type cannot
      overflow.
    - Arrays are lists read with stdpp's [!!] and written with [<[i:=x]>];
      a read outside the array is undefined behaviour in the code and is
      made explicit where a claim depends on it ([outcome]). *)

From Stdlib Require Import ZArith Lia Bool.
From stdpp Require Import base list list_numbers.

Local Open Scope Z_scope.

(* ================================================================= *)
(** ** Machine integers *)

Module CInt.

(** Two's complement value of [z] in a signed word of [w] bits. *)
Definition wrap (w : Z) (z : Z) : Z :=
  (z + 2 ^ (w - 1)) mod 2 ^ w - 2 ^ (w - 1).

Definition int_bits : Z := 32.
(** [long] of the LP64 data model. *)
Definition long_bits : Z := 64.

Definition to_int (z : Z) : Z := wrap int_bits z.
Definition to_long (z : Z) : Z := wrap long_bits z.
Definition to_uchar (z : Z) : Z := z mod 256.

Definition INT_MAX : Z := 2 ^ 31 - 1.
Definition INT_MIN : Z := - 2 ^ 31.

Definition int_range (z : Z) : Prop := INT_MIN <= z <= INT_MAX.

End CInt.
Import CInt.

(* ================================================================= *)
(** ** COMPUTE FUNCTIONS *)

(** [compute_complement<NTYPE>(ival, num_table_entries)], at
    [NTYPE = long] as [ISODUAL_TABLE::Complement] instantiates it:
    [num_table_entries-1-ival] is computed in [long] and returned as a
    [TABLE_INDEX]. *)
Definition compute_complement (ival : Z) (num_table_entries : Z) : Z :=
  to_int (to_long (to_long (num_table_entries - 1) - ival)).

(* ================================================================= *)
(** ** Outcomes of a call *)

Inductive error_kind : Set :=
| DimensionError
| NotBuiltError.

(** A call returns a value, throws, or has undefined behaviour (a read
    through a null or out-of-range pointer). *)
Inductive outcome (A : Type) : Type :=
| Value (a : A)
| Throw (e : error_kind)
| Undefined.
Arguments Value {A} a.
Arguments Throw {A} e.
Arguments Undefined {A}.

Definition bind_outcome {A B} (x : outcome A) (f : A -> outcome B) : outcome B :=
  match x with
  | Value a => f a
  | Throw e => Throw e
  | Undefined => Undefined
  end.

(** [p[i]] for a pointer [p] that is null ([None]) or points to an array. *)
Definition deref {A} (p : option (list A)) (i : Z) : outcome A :=
  match p with
  | None => Undefined
  | Some l =>
      if (i <? 0) then Undefined
      else match l !! Z.to_nat i with
           | Some a => Value a
           | None => Undefined
           end
  end.

(* ================================================================= *)
(** ** ISODUAL TABLE *)

(** [ISODUAL_TABLE::ISODUAL_TABLE_ENTRY]. [incident_isovertex] holds
    [ISODUAL_VERTEX_INDEX] values, that is [unsigned char]. *)
Record ISODUAL_TABLE_ENTRY : Type := {
  num_vertices : Z;
  incident_isovertex : option (list Z);
  is_bipolar : option (list bool)
}.

Record ISODUAL_TABLE : Type := {
  dimension : Z;
  num_poly_vertices : Z;
  num_poly_edges : Z;
  entry : option (list ISODUAL_TABLE_ENTRY);
  num_table_entries : Z;
  max_num_vertices : Z;
  is_table_allocated : bool
}.

Definition Dimension (t : ISODUAL_TABLE) : Z := dimension t.
Definition NumPolyVertices (t : ISODUAL_TABLE) : Z := num_poly_vertices t.
Definition NumPolyEdges (t : ISODUAL_TABLE) : Z := num_poly_edges t.
Definition NumTableEntries (t : ISODUAL_TABLE) : Z := to_int (num_table_entries t).
Definition MaxNumVertices (t : ISODUAL_TABLE) : Z := max_num_vertices t.
Definition IsTableAllocated (t : ISODUAL_TABLE) : bool := is_table_allocated t.

Definition Complement (t : ISODUAL_TABLE) (it : Z) : Z :=
  compute_complement it (num_table_entries t).

(** [entry[it].num_vertices] *)
Definition NumIsoVertices (t : ISODUAL_TABLE) (it : Z) : outcome Z :=
  bind_outcome (deref (entry t) it) (fun e => Value (num_vertices e)).

(** [entry[it].incident_isovertex[kf]] *)
Definition IncidentIsoVertex (t : ISODUAL_TABLE) (it : Z) (kf : Z) : outcome Z :=
  bind_outcome (deref (entry t) it) (fun e => deref (incident_isovertex e) kf).

(** [entry[it].is_bipolar[ke]] *)
Definition IsBipolar (t : ISODUAL_TABLE) (it : Z) (ke : Z) : outcome bool :=
  bind_outcome (deref (entry t) it) (fun e => deref (is_bipolar e) ke).

(** Modelled from the spec: [ISODUAL_TABLE::IsPositive] is declared in the
    header and defined elsewhere; the spec has "bit test of vertex v in
    it".  The test is written the way [ComputeNumCubeFacetBits] tests a
    vertex bit. *)
Definition IsPositive (it : Z) (iv : Z) : bool :=
  negb (Z.land (to_int (Z.shiftl 1 iv)) it =? 0).

(** [ISODUAL_CUBE_TABLE] adds the two policy flags to the table. *)
Record ISODUAL_CUBE_TABLE : Type := {
  table : ISODUAL_TABLE;
  flag_separate_neg : bool;
  flag_always_separate_opposite : bool
}.

Definition FlagSeparateNeg (t : ISODUAL_CUBE_TABLE) : bool := flag_separate_neg t.

(** [ISODUAL_CUBE_TABLE_AMBIG] adds the ambiguity arrays.  [FACET_SET] is
    an [int], [FACET_INDEX] an [unsigned char]. *)
Record ISODUAL_CUBE_TABLE_AMBIG : Type := {
  cube_table : ISODUAL_CUBE_TABLE;
  is_ambiguous : option (list bool);
  ambiguous_facet : option (list Z);
  num_ambiguous_facets : option (list Z);
  num_active_facets : option (list Z)
}.

Definition IsAmbiguous (t : ISODUAL_CUBE_TABLE_AMBIG) (it : Z) : outcome bool :=
  deref (is_ambiguous t) it.

Definition IsFacetAmbiguous (t : ISODUAL_CUBE_TABLE_AMBIG) (it : Z) (jf : Z)
  : outcome bool :=
  bind_outcome (deref (ambiguous_facet t) it)
    (fun s => Value (negb (Z.land s (to_long (Z.shiftl 1 jf)) =? 0))).

Definition AmbiguousFacetBits (t : ISODUAL_CUBE_TABLE_AMBIG) (it : Z) : outcome Z :=
  deref (ambiguous_facet t) it.

Definition NumAmbiguousFacets (t : ISODUAL_CUBE_TABLE_AMBIG) (it : Z) : outcome Z :=
  deref (num_ambiguous_facets t) it.

Definition NumActiveFacets (t : ISODUAL_CUBE_TABLE_AMBIG) (it : Z) : outcome Z :=
  deref (num_active_facets t) it.

Local Close Scope Z_scope.

(* ================================================================= *)
(** ** Cube geometry *)

(** The interface of [IJK::CUBE_FACE_INFO] (ijkcube.txx) that the table
    code calls: vertex, edge and facet counts, the two endpoints of an
    edge, the vertices of a facet and the vertex diagonally opposite a
    vertex.  The table code is written against this interface only, so
    the geometry is a parameter of everything below. *)
Record CUBE_FACE_INFO : Type := {
  CubeDimension : nat;
  NumVertices : nat;
  NumEdges : nat;
  EdgeEndpoint : nat -> nat -> nat;
  NumFacets : nat;
  NumFacetVertices : nat;
  FacetVertex : nat -> nat -> nat;
  OppositeVertex : nat -> nat
}.

(** Every index the geometry hands out is a vertex of the cube. *)
Record cube_wf (cube : CUBE_FACE_INFO) : Prop := {
  wf_endpoint : forall ie k, ie < NumEdges cube -> k < 2 ->
    EdgeEndpoint cube ie k < NumVertices cube;
  wf_facet_vertex : forall kf j, kf < NumFacets cube -> j < NumFacetVertices cube ->
    FacetVertex cube kf j < NumVertices cube;
  wf_opposite : forall v, v < NumVertices cube ->
    OppositeVertex cube v < NumVertices cube
}.

(* ================================================================= *)
(** ** CLASS ISODUAL_CUBE_FACE_INFO MEMBER FUNCTIONS *)

(** One iteration of the loop of [ComputeNumCubeFacetBits]; the state is
    [(num_zeros, num_ones)]. *)
Definition count_facet_bit (cube : CUBE_FACE_INFO) (ientry : Z) (ifacet : nat)
  (st : nat * nat) (j : nat) : nat * nat :=
  let jv := FacetVertex cube ifacet j in
  let mask := to_int (Z.shiftl 1 (Z.of_nat jv)) in
  if (Z.land mask ientry =? 0)%Z then (S (fst st), snd st) else (fst st, S (snd st)).

Definition ComputeNumCubeFacetBits (cube : CUBE_FACE_INFO) (ientry : Z)
  (ifacet : nat) : nat * nat :=
  fold_left (count_facet_bit cube ientry ifacet) (seq 0 (NumFacetVertices cube)) (0, 0).

Definition IsCubeFacetActive (cube : CUBE_FACE_INFO) (ientry : Z) (ifacet : nat)
  : bool :=
  let '(num_zeros, num_ones) := ComputeNumCubeFacetBits cube ientry ifacet in
  if (0 <? num_zeros) && (0 <? num_ones) then true else false.

Definition ComputeNumActiveCubeFacets (cube : CUBE_FACE_INFO) (ientry : Z) : nat :=
  fold_left
    (fun num_active_facets ifacet =>
       if IsCubeFacetActive cube ientry ifacet
       then S num_active_facets else num_active_facets)
    (seq 0 (NumFacets cube)) 0.

(** Facet [f] has a vertex whose bit in [ientry] is [b]. *)
Definition facet_has_sign (cube : CUBE_FACE_INFO) (ientry : Z) (f : nat) (b : bool)
  : Prop :=
  exists j, j < NumFacetVertices cube /\
            Z.testbit ientry (Z.of_nat (FacetVertex cube f j)) = b.

(** Facet [f] has both a positive and a negative vertex. *)
Definition facet_crossed (cube : CUBE_FACE_INFO) (ientry : Z) (f : nat) : Prop :=
  facet_has_sign cube ientry f true /\ facet_has_sign cube ientry f false.

(** Shifting [TABLE_INDEX(1)] by a vertex number is defined for the
    numbers below 31. *)
Definition facet_vertices_shiftable (cube : CUBE_FACE_INFO) : Prop :=
  forall kf j, kf < NumFacets cube -> j < NumFacetVertices cube ->
    FacetVertex cube kf j < 31.

(* ================================================================= *)
(** ** CLASS FIND_COMPONENT *)

(** The scratch state of the component search: [vertex_flag[v]] tells
    whether vertex [v] is in the sign class being searched and
    [component[v]] is its component number, 0 when unvisited.  The field
    [dimension] of the class is [fc_dimension] here, the table having a
    field of that name. *)
Record FIND_COMPONENT : Type := {
  fc_dimension : nat;
  num_cube_vertices : nat;
  vertex_flag : list bool;
  component : list nat
}.

(** [vertex_flag[i]].  The code reads inside the array; for an index
    outside it the model reads [false], a vertex that is in no class. *)
Definition VertexFlag (fc : FIND_COMPONENT) (i : nat) : bool :=
  default false (vertex_flag fc !! i).

(** [component[i]], read as 0 outside the array. *)
Definition Component (fc : FIND_COMPONENT) (i : nat) : nat :=
  default 0 (component fc !! i).

Definition NumCubeVertices (fc : FIND_COMPONENT) : nat := num_cube_vertices fc.

(** Modelled from the spec: the member functions of [FIND_COMPONENT] are
    declared in the header and defined elsewhere.  The constructor
    allocates both arrays for the vertices of the cube. *)
Definition FIND_COMPONENT_new (cube : CUBE_FACE_INFO) : FIND_COMPONENT :=
  {| fc_dimension := CubeDimension cube;
     num_cube_vertices := NumVertices cube;
     vertex_flag := replicate (NumVertices cube) false;
     component := replicate (NumVertices cube) 0 |}.

(** Modelled from the spec: "setVertexFlags(ival): flag[v] = bit v of
    ival". *)
Definition SetVertexFlags (fc : FIND_COMPONENT) (ival : Z) : FIND_COMPONENT :=
  {| fc_dimension := fc_dimension fc;
     num_cube_vertices := num_cube_vertices fc;
     vertex_flag :=
       (fun v => Z.testbit ival (Z.of_nat v)) <$> seq 0 (num_cube_vertices fc);
     component := component fc |}.

(** Modelled from the spec: "negateVertexFlags(): flips all flags". *)
Definition NegateVertexFlags (fc : FIND_COMPONENT) : FIND_COMPONENT :=
  {| fc_dimension := fc_dimension fc;
     num_cube_vertices := num_cube_vertices fc;
     vertex_flag := negb <$> vertex_flag fc;
     component := component fc |}.

(** Modelled from the spec: "clear(): resets all component ids to 0
    (unvisited)". *)
Definition ClearAll (fc : FIND_COMPONENT) : FIND_COMPONENT :=
  {| fc_dimension := fc_dimension fc;
     num_cube_vertices := num_cube_vertices fc;
     vertex_flag := vertex_flag fc;
     component := replicate (num_cube_vertices fc) 0 |}.

(** Modelled from the spec: the assignment [component[i] = icomp] by
    which [search] gives a vertex its component id.  The flood fill
    writes inside the array only; [<[i:=icomp]>] leaves the array as it
    is for an index outside it. *)
Definition set_component (fc : FIND_COMPONENT) (i icomp : nat) : FIND_COMPONENT :=
  {| fc_dimension := fc_dimension fc;
     num_cube_vertices := num_cube_vertices fc;
     vertex_flag := vertex_flag fc;
     component := <[i:=icomp]> (component fc) |}.

(** Modelled from the spec: [search] moves "over polytope edges"; these
    are the vertices joined to [j] by a cube edge, in edge order. *)
Definition edge_neighbors (cube : CUBE_FACE_INFO) (j : nat) : list nat :=
  flat_map
    (fun ie =>
       let v0 := EdgeEndpoint cube ie 0 in
       let v1 := EdgeEndpoint cube ie 1 in
       if v0 =? j then [v1] else if v1 =? j then [v0] else [])
    (seq 0 (NumEdges cube)).

(** Modelled from the spec: "the vertex subset of facet f"; vertex [v] is
    one of the vertices of facet [kf]. *)
Definition in_facet (cube : CUBE_FACE_INFO) (kf v : nat) : bool :=
  existsb (fun j => FacetVertex cube kf j =? v) (seq 0 (NumFacetVertices cube)).

(** Modelled from the spec: the moves of [searchFacet], "restricted to
    the vertex subset of facet f". *)
Definition facet_neighbors (cube : CUBE_FACE_INFO) (kf j : nat) : list nat :=
  List.filter (in_facet cube kf) (edge_neighbors cube j).

(** Modelled from the spec: [search] is "visiting only flagged, unvisited
    vertices, assigning them component id id".  The flood fill looks at
    one neighbour [j2] of the vertex it took from the work list: a
    flagged, unvisited vertex gets the component number and is put on the
    work list. *)
Definition visit (icomp : nat) (st : FIND_COMPONENT * list nat) (j2 : nat)
  : FIND_COMPONENT * list nat :=
  if VertexFlag (fst st) j2 && (Component (fst st) j2 =? 0)
  then (set_component (fst st) j2 icomp, j2 :: snd st)
  else st.

(** Modelled from the spec: the work-list loop of the flood fill of
    [search].  Every vertex enters the work list at most once, so [fuel]
    above the number of vertices lets the loop run until the list is
    empty (lemma [search_loop_spec]). *)
Fixpoint search_loop (fuel : nat) (nbrs : nat -> list nat) (icomp : nat)
  (fc : FIND_COMPONENT) (vlist : list nat) : FIND_COMPONENT :=
  match fuel with
  | O => fc
  | S fuel' =>
      match vlist with
      | [] => fc
      | j :: rest =>
          let st := fold_left (visit icomp) (nbrs j) (fc, rest) in
          search_loop fuel' nbrs icomp (fst st) (snd st)
      end
  end.

(** Modelled from the spec: the flood fill from [i] with the neighbours
    [nbrs]: [i] gets the component number and starts the work list.
    [Search] and [SearchFacet] are its instances. *)
Definition search_from (nbrs : nat -> list nat) (fc : FIND_COMPONENT)
  (i icomp : nat) : FIND_COMPONENT :=
  search_loop (S (num_cube_vertices fc)) nbrs icomp (set_component fc i icomp) [i].

(** Modelled from the spec: "search(v, id): flood-fills from vertex v over
    polytope edges, visiting only flagged, unvisited vertices, assigning
    them component id id.  Precondition: id != 0". *)
Definition Search (cube : CUBE_FACE_INFO) (fc : FIND_COMPONENT) (i icomp : nat)
  : FIND_COMPONENT :=
  search_from (edge_neighbors cube) fc i icomp.

(** Modelled from the spec: "searchFacet(f, v, id): identical flood fill
    but restricted to the vertex subset of facet f". *)
Definition SearchFacet (cube : CUBE_FACE_INFO) (fc : FIND_COMPONENT)
  (kf i icomp : nat) : FIND_COMPONENT :=
  search_from (facet_neighbors cube kf) fc i icomp.

(** Modelled from the spec: the first steps of [countComponents], "sets
    flags from ientry (negated if usePositive is false), clears
    components". *)
Definition prepare (fc : FIND_COMPONENT) (ientry : Z) (flag_positive : bool)
  : FIND_COMPONENT :=
  let fc1 := SetVertexFlags fc ientry in
  let fc2 := if flag_positive then fc1 else NegateVertexFlags fc1 in
  ClearAll fc2.

(** Modelled from the spec: one iteration of the loop of
    [countComponents], which "selects an unvisited flagged vertex and runs
    search with an incrementing id". *)
Definition start_component (search : FIND_COMPONENT -> nat -> nat -> FIND_COMPONENT)
  (st : FIND_COMPONENT * nat) (i : nat) : FIND_COMPONENT * nat :=
  if (Component (fst st) i =? 0) && VertexFlag (fst st) i
  then (search (fst st) i (S (snd st)), S (snd st))
  else st.

(** Modelled from the spec: "countComponents(ientry, usePositive): sets
    flags from ientry (negated if usePositive is false), clears
    components, then repeatedly selects an unvisited flagged vertex and
    runs search with an incrementing id until every flagged vertex is
    assigned; returns the final id count".  The state of the search is
    returned with the count. *)
Definition ComputeNumComponents (cube : CUBE_FACE_INFO) (fc : FIND_COMPONENT)
  (ientry : Z) (flag_positive : bool) : FIND_COMPONENT * nat :=
  fold_left (start_component (Search cube))
    (seq 0 (num_cube_vertices fc)) (prepare fc ientry flag_positive, 0).

(** Modelled from the spec: "countComponentsInFacet(ientry, f,
    usePositive): same restricted to one facet via searchFacet". *)
Definition ComputeNumComponentsInFacet (cube : CUBE_FACE_INFO)
  (fc : FIND_COMPONENT) (ientry : Z) (kf : nat) (flag_positive : bool)
  : FIND_COMPONENT * nat :=
  fold_left (start_component (fun fc i icomp => SearchFacet cube fc kf i icomp))
    (FacetVertex cube kf <$> seq 0 (NumFacetVertices cube))
    (prepare fc ientry flag_positive, 0).

(* ================================================================= *)
(** ** AMBIGUITY ROUTINES *)

(** Modelled from the spec: [is_cube_facet_ambiguous] is declared in the
    header and defined elsewhere; "facetIsAmbiguous(ientry, f): true iff
    the vertex subset of facet f, restricted to the positive sign class,
    forms more than one connected component". *)
Definition is_cube_facet_ambiguous (cube : CUBE_FACE_INFO) (ientry : Z)
  (kf : nat) (fc : FIND_COMPONENT) : FIND_COMPONENT * bool :=
  let r := ComputeNumComponentsInFacet cube fc ientry kf true in
  (fst r, 1 <? snd r).

(** Modelled from the spec: [is_cube_ambiguous] is declared in the header
    and defined elsewhere; "cubeIsAmbiguous(ientry): true iff any facet is
    ambiguous by the above test, or the whole-cube positive-vertex
    component count together with the negative-vertex component count
    indicates multiple disjoint same-sign regions": one of the two counts
    is above one. *)
Definition is_cube_ambiguous (cube : CUBE_FACE_INFO) (ientry : Z)
  (fc : FIND_COMPONENT) : FIND_COMPONENT * bool :=
  let rf :=
    fold_left
      (fun st kf =>
         let r := is_cube_facet_ambiguous cube ientry kf (fst st) in
         (fst r, snd st || snd r))
      (seq 0 (NumFacets cube)) (fc, false) in
  let rp := ComputeNumComponents cube (fst rf) ientry true in
  let rn := ComputeNumComponents cube (fst rp) ientry false in
  (fst rn, snd rf || (1 <? snd rp) || (1 <? snd rn)).

(** Modelled from the spec: "computeAmbiguousFacets(ientry, facetCount):
    iterates every facet, applies facetIsAmbiguous, accumulates a bit-set
    and count".  The state is [(find_component, facet_set,
    num_ambiguous_facets)]. *)
Definition compute_ambiguous_cube_facets (cube : CUBE_FACE_INFO) (ientry : Z)
  (num_facets : nat) (fc : FIND_COMPONENT) : FIND_COMPONENT * Z * Z :=
  fold_left
    (fun st kf =>
       let '(fc, facet_set, num_ambiguous) := st in
       let r := is_cube_facet_ambiguous cube ientry kf fc in
       if snd r
       then (fst r,
             to_int (Z.lor facet_set (to_int (Z.shiftl 1 (Z.of_nat kf)))),
             to_uchar (num_ambiguous + 1))
       else (fst r, facet_set, num_ambiguous))
    (seq 0 num_facets) (fc, 0%Z, 0%Z).

(* ================================================================= *)
(** ** Table construction *)

(** Modelled from the spec: the default constructor [ISODUAL_TABLE()] and
    the [Init] it calls are declared in the header and defined elsewhere.
    They leave a table with nothing allocated; the "maximum supported"
    number of cube vertices, which they set, is a parameter here. *)
Definition ISODUAL_TABLE_new (max_vertices : Z) : ISODUAL_TABLE :=
  {| dimension := 0;
     num_poly_vertices := 0;
     num_poly_edges := 0;
     entry := None;
     num_table_entries := 0;
     max_num_vertices := max_vertices;
     is_table_allocated := false |}.

(** Modelled from the spec: "release(): frees all records". *)
Definition FreeAll (t : ISODUAL_TABLE) : ISODUAL_TABLE :=
  {| dimension := dimension t;
     num_poly_vertices := num_poly_vertices t;
     num_poly_edges := num_poly_edges t;
     entry := None;
     num_table_entries := 0;
     max_num_vertices := max_num_vertices t;
     is_table_allocated := false |}.

(** Modelled from the spec: [CheckDimension] is declared in the header and
    defined elsewhere; a dimension is refused "if vertex count would
    exceed the maximum supported".  The dimension comes with its
    geometry. *)
Definition CheckDimension (t : ISODUAL_TABLE) (cube : CUBE_FACE_INFO) : bool :=
  (Z.of_nat (NumVertices cube) <=? MaxNumVertices t)%Z.

(** Modelled from the spec: "setDimension(d)": "derives vertex/edge/facet
    counts from the Geometry Service"; "Fails with DimensionError if
    vertex count would exceed the maximum supported".  A table that was
    allocated for another dimension is released. *)
Definition SetDimension (t : ISODUAL_TABLE) (cube : CUBE_FACE_INFO)
  : ISODUAL_TABLE * outcome unit :=
  if CheckDimension t cube
  then ({| dimension := Z.of_nat (CubeDimension cube);
           num_poly_vertices := Z.of_nat (NumVertices cube);
           num_poly_edges := Z.of_nat (NumEdges cube);
           entry := None;
           num_table_entries := 0;
           max_num_vertices := max_num_vertices t;
           is_table_allocated := false |}, Value ())
  else (FreeAll t, Throw DimensionError).

(** Modelled from the spec: "If alwaysSeparateOpposite applies and the
    naive component split would merge vertices that are diagonally
    opposite in the full cube, force them into separate components before
    assigning patch indices".  For a vertex [v] and its opposite [w] that
    are both in the sign class and carry one component number, [w] is
    moved to a new component.  The state is [(find_component,
    num_components)]. *)
Definition separate_opposite (cube : CUBE_FACE_INFO) (st : FIND_COMPONENT * nat)
  (v : nat) : FIND_COMPONENT * nat :=
  let w := OppositeVertex cube v in
  if (v <? w) && VertexFlag (fst st) v && VertexFlag (fst st) w
     && (Component (fst st) v =? Component (fst st) w)
  then (set_component (fst st) w (S (snd st)), S (snd st))
  else st.

(** Modelled from the spec: the components of one sign class as step 1
    of the per-index algorithm uses them: [countComponents], then the
    separation of opposite vertices when the flag is set. *)
Definition sign_components (cube : CUBE_FACE_INFO) (fc : FIND_COMPONENT)
  (it : Z) (flag_positive flag_separate_opposite : bool) : FIND_COMPONENT * nat :=
  let r := ComputeNumComponents cube fc it flag_positive in
  if flag_separate_opposite
  then fold_left (separate_opposite cube) (seq 0 (num_cube_vertices (fst r))) r
  else r.

(** Modelled from the spec: step 2 of the per-index algorithm for edge
    [ie], "isBipolar[it][e] = (sign(endpoint0) != sign(endpoint1))"; [fc]
    holds the flags and components of the positive class. *)
Definition edge_is_bipolar (cube : CUBE_FACE_INFO) (fc : FIND_COMPONENT) (ie : nat)
  : bool :=
  xorb (VertexFlag fc (EdgeEndpoint cube ie 0)) (VertexFlag fc (EdgeEndpoint cube ie 1)).

(** Modelled from the spec: step 2 of the per-index algorithm for a
    bipolar edge, "the patch id of whichever endpoint belongs to the
    tracked sign class (positive by default ...)", stored as an
    [ISODUAL_VERTEX_INDEX]; component [c] is patch [c-1]. *)
Definition edge_incident_isovertex (cube : CUBE_FACE_INFO) (fc : FIND_COMPONENT)
  (ie : nat) : Z :=
  if edge_is_bipolar cube fc ie
  then
    let iv := if VertexFlag fc (EdgeEndpoint cube ie 0)
              then EdgeEndpoint cube ie 0 else EdgeEndpoint cube ie 1 in
    to_uchar (Z.of_nat (Component fc iv) - 1)
  else 0%Z.

(** Modelled from the spec: the per-index algorithm of the Table Builder.
    "patchCount[it] = countComponents(it, true) plus, if separateNegative,
    countComponents(it, false); each discovered component becomes one
    patch index"; "For every edge e: isBipolar[it][e] = (sign(endpoint0)
    != sign(endpoint1)); when true, incidentPatch[it][e] = the patch id of
    whichever endpoint belongs to the tracked sign class (positive by
    default ...)".  Component [c] of the positive class is patch [c-1]. *)
Definition create_table_entry (cube : CUBE_FACE_INFO)
  (flag_separate_neg flag_separate_opposite : bool) (it : Z) : ISODUAL_TABLE_ENTRY :=
  let find_component := FIND_COMPONENT_new cube in
  let rp := sign_components cube find_component it true flag_separate_opposite in
  let num_neg :=
    if flag_separate_neg
    then snd (sign_components cube (fst rp) it false flag_separate_opposite)
    else 0 in
  {| num_vertices := to_int (Z.of_nat (snd rp + num_neg));
     incident_isovertex :=
       Some (edge_incident_isovertex cube (fst rp) <$> seq 0 (NumEdges cube));
     is_bipolar :=
       Some (edge_is_bipolar cube (fst rp) <$> seq 0 (NumEdges cube)) |}.

(** Modelled from the spec: [CreateTableEntries] is declared in the header
    and defined elsewhere; the table has one record for each of the
    [2^V] sign configurations. *)
Definition CreateTableEntries (cube : CUBE_FACE_INFO)
  (flag_separate_neg flag_separate_opposite : bool) (t : ISODUAL_TABLE)
  : ISODUAL_TABLE :=
  let n := 2 ^ NumVertices cube in
  {| dimension := dimension t;
     num_poly_vertices := num_poly_vertices t;
     num_poly_edges := num_poly_edges t;
     entry :=
       Some ((fun it => create_table_entry cube flag_separate_neg
                          flag_separate_opposite (Z.of_nat it)) <$> seq 0 n);
     num_table_entries := to_long (Z.of_nat n);
     max_num_vertices := max_num_vertices t;
     is_table_allocated := true |}.

(** Modelled from the spec: "build(d, flags)" of the cube table:
    [ISODUAL_CUBE_TABLE::Create(dimension, flag_separate_neg,
    flag_separate_opposite)]. *)
Definition Create (t : ISODUAL_CUBE_TABLE) (cube : CUBE_FACE_INFO)
  (separate_neg separate_opposite : bool) : ISODUAL_CUBE_TABLE * outcome unit :=
  let r := SetDimension (table t) cube in
  match snd r with
  | Value _ =>
      ({| table := CreateTableEntries cube separate_neg separate_opposite (fst r);
          flag_separate_neg := separate_neg;
          flag_always_separate_opposite := separate_opposite |}, Value ())
  | Throw e =>
      ({| table := fst r;
          flag_separate_neg := flag_separate_neg t;
          flag_always_separate_opposite := flag_always_separate_opposite t |},
       Throw e)
  | Undefined =>
      ({| table := fst r;
          flag_separate_neg := flag_separate_neg t;
          flag_always_separate_opposite := flag_always_separate_opposite t |},
       Undefined)
  end.

(** Modelled from the spec: "computeAll(): for every table index, fills
    AmbiguityRecord": [ComputeAmbiguityInformation] and
    [ComputeNumActiveFacets], after the cube table is built. *)
Definition Create_AMBIG (t : ISODUAL_CUBE_TABLE_AMBIG) (cube : CUBE_FACE_INFO)
  (separate_neg separate_opposite : bool)
  : ISODUAL_CUBE_TABLE_AMBIG * outcome unit :=
  let r := Create (cube_table t) cube separate_neg separate_opposite in
  match snd r with
  | Value _ =>
      let indices := Z.of_nat <$> seq 0 (2 ^ NumVertices cube) in
      let fc := FIND_COMPONENT_new cube in
      let facets it := compute_ambiguous_cube_facets cube it (NumFacets cube) fc in
      ({| cube_table := fst r;
          is_ambiguous :=
            Some ((fun it => snd (is_cube_ambiguous cube it fc)) <$> indices);
          ambiguous_facet := Some ((fun it => snd (fst (facets it))) <$> indices);
          num_ambiguous_facets := Some ((fun it => snd (facets it)) <$> indices);
          num_active_facets :=
            Some ((fun it =>
                     to_uchar (Z.of_nat (ComputeNumActiveCubeFacets cube it)))
                    <$> indices) |}, Value ())
  | o =>
      ({| cube_table := fst r;
          is_ambiguous := None;
          ambiguous_facet := None;
          num_ambiguous_facets := None;
          num_active_facets := None |}, o)
  end.

(** Modelled from the spec: the tables as their default constructors,
    which are defined elsewhere, leave them: nothing built. *)
Definition ISODUAL_CUBE_TABLE_new (max_vertices : Z) : ISODUAL_CUBE_TABLE :=
  {| table := ISODUAL_TABLE_new max_vertices;
     flag_separate_neg := false;
     flag_always_separate_opposite := false |}.

(** Modelled from the spec: the default constructor of the table with
    ambiguity information; no array is allocated. *)
Definition ISODUAL_CUBE_TABLE_AMBIG_new (max_vertices : Z)
  : ISODUAL_CUBE_TABLE_AMBIG :=
  {| cube_table := ISODUAL_CUBE_TABLE_new max_vertices;
     is_ambiguous := None;
     ambiguous_facet := None;
     num_ambiguous_facets := None;
     num_active_facets := None |}.

(* ================================================================= *)
(** ** The square *)

(** Modelled from the spec: the geometry of "a 2-dimensional cube (4
    vertices, 4 edges)" in which "corners 0 and 2" are "two diagonally
    opposite corners": the corners are numbered around the square, edge
    [ie] joins corner [ie] to the next corner, and the facets of a square
    are its edges. *)
Definition square : CUBE_FACE_INFO :=
  {| CubeDimension := 2;
     NumVertices := 4;
     NumEdges := 4;
     EdgeEndpoint := fun ie k => (ie + k) mod 4;
     NumFacets := 4;
     NumFacetVertices := 2;
     FacetVertex := fun kf j => (kf + j) mod 4;
     OppositeVertex := fun v => (v + 2) mod 4 |}.

(* ================================================================= *)
(** ** The segment *)

(** A 1-dimensional cube as an input of the facet routines: two vertices
    joined by one edge; its two facets are its vertices, facet [kf] being
    vertex [kf]. *)
Definition segment : CUBE_FACE_INFO :=
  {| CubeDimension := 1;
     NumVertices := 2;
     NumEdges := 1;
     EdgeEndpoint := fun ie k => k mod 2;
     NumFacets := 2;
     NumFacetVertices := 1;
     FacetVertex := fun kf j => kf mod 2;
     OppositeVertex := fun v => (v + 1) mod 2 |}.

(* ================================================================= *)
(** ** Connected components of a sign class *)

(** Two vertices are adjacent when a cube edge joins them. *)
Definition adjacent (cube : CUBE_FACE_INFO) (u w : nat) : Prop :=
  exists ie, ie < NumEdges cube /\
    ((EdgeEndpoint cube ie 0 = u /\ EdgeEndpoint cube ie 1 = w) \/
     (EdgeEndpoint cube ie 0 = w /\ EdgeEndpoint cube ie 1 = u)).

(** [connected adj cls u v]: a path of [adj] steps leads from [u] to [v]
    through vertices of the class [cls] only. *)
Inductive connected (adj : nat -> nat -> Prop) (cls : nat -> bool)
  : nat -> nat -> Prop :=
| connected_refl (v : nat) : cls v = true -> connected adj cls v v
| connected_step (u v w : nat) :
    connected adj cls u v -> adj v w -> cls w = true -> connected adj cls u w.

(** The positive ([flag_positive = true]) or negative vertices of the
    configuration [ientry]. *)
Definition sign_class (cube : CUBE_FACE_INFO) (ientry : Z) (flag_positive : bool)
  (v : nat) : bool :=
  (v <? NumVertices cube) && Bool.eqb (Z.testbit ientry (Z.of_nat v)) flag_positive.

(** [n] is the number of connected components of the class [cls]: some
    list of [n] vertices has exactly one vertex of every component. *)
Definition is_component_count (adj : nat -> nat -> Prop) (cls : nat -> bool)
  (n : nat) : Prop :=
  exists reps : list nat,
    length reps = n /\
    List.NoDup reps /\
    (forall r, In r reps -> cls r = true) /\
    (forall r r', In r reps -> In r' reps -> connected adj cls r r' -> r = r') /\
    (forall v, cls v = true -> exists r, In r reps /\ connected adj cls r v).

(** The number of unvisited vertices, the measure of the flood fill. *)
Definition num_unvisited (fc : FIND_COMPONENT) : nat :=
  length (List.filter (Nat.eqb 0) (component fc)).

(** *** Invariants of the flood fill

    [fc0] is the state in which [Search] is called, [i] the vertex it
    starts from and [icomp] the component number it hands out. *)

(** Every neighbour of [v] in the class has been visited. *)
Definition settled (nbrs : nat -> list nat) (fc0 fc : FIND_COMPONENT) (v : nat)
  : Prop :=
  forall w, In w (nbrs v) -> VertexFlag fc0 w = true -> Component fc w <> 0.

(** What holds of the state [fc] and the work list throughout. *)
Record flood_core (nbrs : nat -> list nat) (icomp : nat) (fc0 : FIND_COMPONENT)
  (i : nat) (fc : FIND_COMPONENT) (vlist : list nat) : Prop := {
  fi_num : num_cube_vertices fc = num_cube_vertices fc0;
  fi_flag : vertex_flag fc = vertex_flag fc0;
  fi_len : length (component fc) = length (component fc0);
  fi_keep : forall v, Component fc v = icomp \/ Component fc v = Component fc0 v;
  fi_new : forall v, Component fc v = icomp ->
    connected (fun a b => In b (nbrs a)) (VertexFlag fc0) i v;
  fi_old : forall v, Component fc0 v <> 0 -> Component fc v = Component fc0 v;
  fi_start : Component fc i = icomp;
  fi_work : forall v, In v vlist -> Component fc v = icomp
}.

(** Between two iterations of the work-list loop: a vertex of the new
    component is on the work list or settled. *)
Definition flood_inv (nbrs : nat -> list nat) (icomp : nat) (fc0 : FIND_COMPONENT)
  (i : nat) (fc : FIND_COMPONENT) (vlist : list nat) : Prop :=
  flood_core nbrs icomp fc0 i fc vlist /\
  (forall v, Component fc v = icomp -> In v vlist \/ settled nbrs fc0 fc v).

(** Inside an iteration: [j] was taken from the work list and its
    neighbours [seen] have been looked at. *)
Definition visit_inv (nbrs : nat -> list nat) (icomp : nat) (fc0 : FIND_COMPONENT)
  (i j : nat) (seen : list nat) (fc : FIND_COMPONENT) (vlist : list nat) : Prop :=
  flood_core nbrs icomp fc0 i fc vlist /\
  Component fc j = icomp /\
  (forall v, Component fc v = icomp ->
             v = j \/ In v vlist \/ settled nbrs fc0 fc v) /\
  (forall w, In w seen -> VertexFlag fc0 w = true -> Component fc w <> 0).

(** *** Invariant of the loop over the vertices

    [fc0] is the prepared state (flags set, components cleared),
    [processed] the vertices the loop has passed, [n] the number of
    components so far. *)
Record components_inv (nbrs : nat -> list nat) (fc0 : FIND_COMPONENT)
  (processed : list nat) (fc : FIND_COMPONENT) (n : nat) : Prop := {
  ci_num : num_cube_vertices fc = num_cube_vertices fc0;
  ci_flag : vertex_flag fc = vertex_flag fc0;
  ci_len : length (component fc) = length (component fc0);
  ci_le : forall v, Component fc v <= n;
  ci_cls : forall v, Component fc v <> 0 -> VertexFlag fc0 v = true;
  ci_closed : forall u w, Component fc u <> 0 -> In w (nbrs u) ->
    VertexFlag fc0 w = true -> Component fc w = Component fc u;
  ci_conn : forall u v, Component fc u <> 0 -> Component fc u = Component fc v ->
    connected (fun a b => In b (nbrs a)) (VertexFlag fc0) u v;
  ci_processed : forall v, In v processed -> VertexFlag fc0 v = true ->
    Component fc v <> 0;
  ci_rep : forall c, 1 <= c <= n -> exists v, Component fc v = c
}.

(** *** The labelling the table is built from

    [fc0] is the prepared state; every vertex of the class carries one of
    the component numbers [1..n] and every number is carried by a vertex
    of the class. *)
Record labelled (fc0 fc : FIND_COMPONENT) (n : nat) : Prop := {
  lb_num : num_cube_vertices fc = num_cube_vertices fc0;
  lb_flag : vertex_flag fc = vertex_flag fc0;
  lb_len : length (component fc) = length (component fc0);
  lb_le : forall v, Component fc v <= n;
  lb_cls : forall v, VertexFlag fc0 v = true -> Component fc v <> 0;
  lb_rep : forall c, 1 <= c <= n ->
    exists v, VertexFlag fc0 v = true /\ Component fc v = c
}.

(* ================================================================= *)
(** ** Repositioning of vertices (ivoldual_reposition.cxx) *)

Module IVOLDUAL.

(** The coordinate routines of IJK that the smoothing calls, the literal
    [0.0] and the comparison [<] of two floats.  They are defined outside
    this code and work on floating-point numbers, so they are parameters:
    a routine that stores [d] coordinates through a pointer is the list
    it stores. *)
Record COORD_OPS : Type := {
  COORD_TYPE : Type;
  FLOAT : Type;
  zero : COORD_TYPE;
  set_coord : nat -> COORD_TYPE -> list COORD_TYPE;
  add_coord : nat -> list COORD_TYPE -> list COORD_TYPE -> list COORD_TYPE;
  compute_distance : nat -> list COORD_TYPE -> list COORD_TYPE -> FLOAT;
  divide_coord : nat -> Z -> list COORD_TYPE -> list COORD_TYPE;
  copy_coord : nat -> list COORD_TYPE -> list COORD_TYPE;
  float_lt : FLOAT -> FLOAT -> bool
}.

(** The two queries of [IVOLDUAL_CUBE_TABLE] that the smoothing makes,
    on a table index and a patch index. *)
Record IVOLDUAL_CUBE_TABLE : Type := {
  OnLowerIsosurface : Z -> Z -> bool;
  OnUpperIsosurface : Z -> Z -> bool
}.

(** The interface of [IVOL_VERTEX_ADJACENCY_LIST]. *)
Record IVOL_VERTEX_ADJACENCY_LIST : Type := {
  NumVertices : nat;
  NumAdjacent : nat -> nat;
  AdjacentVertex : nat -> nat -> nat
}.

(** An element of [DUAL_IVOLVERT_ARRAY], with the fields the code reads. *)
Record DUAL_IVOLVERT : Type := {
  patch_index : Z;
  table_index : Z;
  cube_index : Z
}.

(** [ivolv_list[v]]; the code reads inside the array ([mesh_wf]). *)
Definition ivolv_at (ivolv_list : list DUAL_IVOLVERT) (v : nat) : DUAL_IVOLVERT :=
  default {| patch_index := 0; table_index := 0; cube_index := 0 |}
    (ivolv_list !! v).

(** The [d] coordinates at [vcoord + v*d]. *)
Definition coord_at {A} (d : nat) (vertex_coord : list A) (v : nat) : list A :=
  take d (drop (v * d) vertex_coord).

(** Storing [d] coordinates at [vcoord + v*d]. *)
Definition store_coord {A} (d : nat) (vertex_coord : list A) (v : nat)
  (coord : list A) : list A :=
  list_inserts (v * d) (take d coord) vertex_coord.

Definition on_lower (table : IVOLDUAL_CUBE_TABLE) (ivolv_list : list DUAL_IVOLVERT)
  (v : nat) : bool :=
  OnLowerIsosurface table (table_index (ivolv_at ivolv_list v))
    (patch_index (ivolv_at ivolv_list v)).

Definition on_upper (table : IVOLDUAL_CUBE_TABLE) (ivolv_list : list DUAL_IVOLVERT)
  (v : nat) : bool :=
  OnUpperIsosurface table (table_index (ivolv_at ivolv_list v))
    (patch_index (ivolv_at ivolv_list v)).

(** The test "a vertex and its adjacent vertex are not on the same
    surface" of the loop over the adjacent vertices. *)
Definition not_same_surface (table : IVOLDUAL_CUBE_TABLE)
  (ivolv_list : list DUAL_IVOLVERT) (cur adj : nat) : bool :=
  (on_lower table ivolv_list cur && negb (on_lower table ivolv_list adj))
  || (on_upper table ivolv_list cur && negb (on_upper table ivolv_list adj)).

Section Smooth.

Variable ops : COORD_OPS.
Variable ivoldual_table : IVOLDUAL_CUBE_TABLE.
Variable vertex_adjacency_list : IVOL_VERTEX_ADJACENCY_LIST.
Variable ivolv_list : list DUAL_IVOLVERT.
Variable laplacian_smooth_limit : FLOAT ops.

(** One iteration of the loop over the adjacent vertices of [cur] in
    [laplacian_smooth_elength]; the state is [(neigh_sum, flag_moving,
    adj_count)]. *)
Definition add_neighbor (vertex_coord : list (COORD_TYPE ops)) (cur : nat)
  (st : list (COORD_TYPE ops) * bool * Z) (k : nat)
  : list (COORD_TYPE ops) * bool * Z :=
  let '(neigh_sum, flag_moving, adj_count) := st in
  let adj := AdjacentVertex vertex_adjacency_list cur k in
  let neigh_coord := coord_at 3 vertex_coord adj in
  if not_same_surface ivoldual_table ivolv_list cur adj then st
  else
    let neigh_sum := add_coord ops 3 neigh_sum neigh_coord in
    let dist := compute_distance ops 3 (coord_at 3 vertex_coord cur) neigh_coord in
    let flag_moving :=
      if float_lt ops dist laplacian_smooth_limit then true else flag_moving in
    (neigh_sum, flag_moving, to_int (adj_count + 1)).

(** The loop over the adjacent vertices of [cur]. *)
Definition sum_neighbors (vertex_coord : list (COORD_TYPE ops)) (cur : nat)
  : list (COORD_TYPE ops) * bool * Z :=
  fold_left (add_neighbor vertex_coord cur)
    (seq 0 (NumAdjacent vertex_adjacency_list cur))
    (set_coord ops 3 (zero ops), false, 0%Z).

(** The body of the loop over all vertices. *)
Definition smooth_vertex (skipSurfaceVert : bool)
  (vertex_coord : list (COORD_TYPE ops)) (cur : nat) : list (COORD_TYPE ops) :=
  let isOnSurface :=
    on_lower ivoldual_table ivolv_list cur || on_upper ivoldual_table ivolv_list cur in
  if Bool.eqb isOnSurface skipSurfaceVert then vertex_coord
  else
    let '(neigh_sum, flag_moving, adj_count) := sum_neighbors vertex_coord cur in
    if flag_moving
    then
      let neigh_sum := divide_coord ops 3 adj_count neigh_sum in
      store_coord 3 vertex_coord cur (copy_coord ops 3 neigh_sum)
    else vertex_coord.

(** One pass [it] over all vertices. *)
Definition smooth_pass (vertex_coord : list (COORD_TYPE ops)) (it : nat)
  : list (COORD_TYPE ops) :=
  let skipSurfaceVert := (Z.rem (Z.of_nat it) 2 =? 0)%Z in
  fold_left (smooth_vertex skipSurfaceVert)
    (seq 0 (NumVertices vertex_adjacency_list)) vertex_coord.

(** [laplacian_smooth_elength]; the result is the array [vertex_coord]
    after the call.  The parameters [scalar_grid] and [param] are not
    used by the function. *)
Definition laplacian_smooth_elength (vertex_coord : list (COORD_TYPE ops))
  (iteration : Z) : list (COORD_TYPE ops) :=
  fold_left smooth_pass
    (seq 0 (Z.to_nat (to_int (to_int (2 * iteration) + 1)))) vertex_coord.

End Smooth.

(** The indices of a mesh are inside its arrays: every vertex has an
    entry of [ivolv_list] and three coordinates, and its adjacent vertices
    are vertices. *)
Record mesh_wf {A} (vertex_adjacency_list : IVOL_VERTEX_ADJACENCY_LIST)
  (ivolv_list : list DUAL_IVOLVERT) (vertex_coord : list A) : Prop := {
  wf_ivolv : NumVertices vertex_adjacency_list <= length ivolv_list;
  wf_coord : 3 * NumVertices vertex_adjacency_list <= length vertex_coord;
  wf_adjacent : forall cur k,
    cur < NumVertices vertex_adjacency_list ->
    k < NumAdjacent vertex_adjacency_list cur ->
    AdjacentVertex vertex_adjacency_list cur k < NumVertices vertex_adjacency_list
}.

(** Integer coordinates, to evaluate the smoothing: sums and quotients by
    coordinate, the squared distance. *)
Definition Z_ops : COORD_OPS :=
  {| COORD_TYPE := Z;
     FLOAT := Z;
     zero := 0%Z;
     set_coord := fun d c => replicate d c;
     add_coord := fun d a b => zip_with Z.add (take d a) (take d b);
     compute_distance := fun d a b =>
       foldr Z.add 0%Z (zip_with (fun x y => (x - y) * (x - y))%Z (take d a) (take d b));
     divide_coord := fun d n a => (fun x => Z.quot x n) <$> take d a;
     copy_coord := fun d a => take d a;
     float_lt := Z.ltb |}.

(** A path of three vertices [0 - 1 - 2]; vertex 0 is on the lower
    surface, vertex 2 on the upper surface, vertex 1 on neither. *)
Definition path_adjacency : IVOL_VERTEX_ADJACENCY_LIST :=
  {| NumVertices := 3;
     NumAdjacent := fun cur => if cur =? 1 then 2 else 1;
     AdjacentVertex := fun cur k => if cur =? 1 then 2 * k else 1 |}.

Definition path_ivolv : list DUAL_IVOLVERT :=
  [ {| patch_index := 0; table_index := 1; cube_index := 0 |};
    {| patch_index := 0; table_index := 2; cube_index := 1 |};
    {| patch_index := 0; table_index := 3; cube_index := 2 |} ].

Definition path_table : IVOLDUAL_CUBE_TABLE :=
  {| OnLowerIsosurface := fun it _ => (it =? 1)%Z;
     OnUpperIsosurface := fun it _ => (it =? 3)%Z |}.

Definition path_coord : list Z := [0; 0; 0; 4; 0; 0; 10; 2; 0]%Z.

End IVOLDUAL.

(* ================================================================= *)
(** * Properties *)

(** ** Machine integers *)

Lemma wrap_id (w z : Z) :
  (0 < w)%Z -> (- 2 ^ (w - 1) <= z < 2 ^ (w - 1))%Z -> wrap w z = z.
Proof.
  intros Hw Hz. unfold wrap.
  assert (E : (2 ^ w = 2 * 2 ^ (w - 1))%Z).
  { replace w with (Z.succ (w - 1)) at 1 by lia. apply Z.pow_succ_r. lia. }
  rewrite Z.mod_small; lia.
Qed.

Lemma wrap_congr (w z : Z) : (0 < w)%Z -> (wrap w z mod 2 ^ w = z mod 2 ^ w)%Z.
Proof.
  intros Hw. unfold wrap.
  assert (E : (2 ^ w = 2 * 2 ^ (w - 1))%Z).
  { replace w with (Z.succ (w - 1)) at 1 by lia. apply Z.pow_succ_r. lia. }
  assert (P : (0 < 2 ^ w)%Z) by (apply Z.pow_pos_nonneg; lia).
  rewrite Zminus_mod, Zmod_mod, <- Zminus_mod. f_equal. lia.
Qed.

Lemma wrap_range (w z : Z) :
  (0 < w)%Z -> (- 2 ^ (w - 1) <= wrap w z < 2 ^ (w - 1))%Z.
Proof.
  intros Hw. unfold wrap.
  assert (E : (2 ^ w = 2 * 2 ^ (w - 1))%Z).
  { replace w with (Z.succ (w - 1)) at 1 by lia. apply Z.pow_succ_r. lia. }
  assert (P : (0 < 2 ^ w)%Z) by (apply Z.pow_pos_nonneg; lia).
  pose proof (Z.mod_pos_bound (z + 2 ^ (w - 1)) (2 ^ w) P). lia.
Qed.

Lemma to_int_id (z : Z) : int_range z -> to_int z = z.
Proof.
  unfold int_range, INT_MIN, INT_MAX, to_int, int_bits. intros H.
  apply wrap_id; [lia|]. change (32 - 1)%Z with 31%Z. lia.
Qed.

Lemma to_long_id (z : Z) : (- 2 ^ 63 <= z < 2 ^ 63)%Z -> to_long z = z.
Proof.
  unfold to_long, long_bits. intros H.
  apply wrap_id; [lia|]. change (64 - 1)%Z with 63%Z. lia.
Qed.

(** A [long] result narrowed to [int] is the exact result modulo [2^32]. *)
Lemma to_int_to_long (z : Z) : (to_int (to_long z) mod 2 ^ 32 = z mod 2 ^ 32)%Z.
Proof.
  unfold to_int, to_long, int_bits, long_bits.
  rewrite wrap_congr by lia.
  assert (D : (2 ^ 32 | 2 ^ 64)%Z) by (exists (2 ^ 32)%Z; reflexivity).
  rewrite <- (Z.mod_mod_divide (wrap 64 z) (2 ^ 64) (2 ^ 32) D).
  rewrite wrap_congr by lia.
  apply Z.mod_mod_divide, D.
Qed.

Lemma to_long_congr32 (z : Z) : (to_long z mod 2 ^ 32 = z mod 2 ^ 32)%Z.
Proof.
  unfold to_long, long_bits.
  assert (D : (2 ^ 32 | 2 ^ 64)%Z) by (exists (2 ^ 32)%Z; reflexivity).
  rewrite <- (Z.mod_mod_divide (wrap 64 z) (2 ^ 64) (2 ^ 32) D).
  rewrite wrap_congr by lia.
  apply Z.mod_mod_divide, D.
Qed.

Lemma to_int_range (z : Z) : int_range (to_int z).
Proof.
  unfold int_range, INT_MIN, INT_MAX, to_int, int_bits.
  pose proof (wrap_range 32 z ltac:(lia)) as H.
  change (32 - 1)%Z with 31%Z in H. lia.
Qed.

Lemma int_range_congr (a b : Z) :
  int_range a -> int_range b -> (a mod 2 ^ 32 = b mod 2 ^ 32)%Z -> a = b.
Proof.
  unfold int_range, INT_MIN, INT_MAX. intros Ha Hb E.
  assert (H : ((a - b) mod 2 ^ 32 = 0)%Z).
  { rewrite Zminus_mod, E, Z.sub_diag. reflexivity. }
  apply Z.mod_divide in H; [|lia]. destruct H as [k Hk]. lia.
Qed.

(** ** compute_complement *)

(** Whatever the operands, the complement is [num_table_entries-1-ival]
    modulo [2^32]. *)
Lemma compute_complement_congr (ival n : Z) :
  (compute_complement ival n mod 2 ^ 32 = (n - 1 - ival) mod 2 ^ 32)%Z.
Proof.
  unfold compute_complement. rewrite to_int_to_long.
  rewrite Zminus_mod, to_long_congr32, <- Zminus_mod. reflexivity.
Qed.

(** No wrap-around happens for the indices of a table whose size is an
    [int]. *)
Lemma compute_complement_exact (ival n : Z) :
  (0 <= ival < n)%Z -> (n <= INT_MAX)%Z ->
  compute_complement ival n = (n - 1 - ival)%Z.
Proof.
  unfold INT_MAX. intros Hi Hn. unfold compute_complement.
  rewrite (to_long_id (n - 1)) by lia.
  rewrite to_long_id by lia.
  apply to_int_id. unfold int_range, INT_MIN, INT_MAX. lia.
Qed.

Lemma compute_complement_involutive (ival n : Z) :
  int_range ival -> compute_complement (compute_complement ival n) n = ival.
Proof.
  intros Hi. apply int_range_congr; [apply to_int_range | exact Hi |].
  rewrite compute_complement_congr.
  rewrite Zminus_mod, compute_complement_congr, <- Zminus_mod.
  f_equal. lia.
Qed.

(** C7.  In a table whose number of entries is an [int], for every table
    index [it] in [[0, num_table_entries)], [Complement(it)] is
    [num_table_entries - 1 - it] and complementing twice gives [it] back:
    [Complement(Complement(it)) == it]. *)
Theorem Complement_involution (t : ISODUAL_TABLE) (it : Z) :
  (0 <= it < num_table_entries t)%Z -> (num_table_entries t <= INT_MAX)%Z ->
  Complement t it = (num_table_entries t - 1 - it)%Z /\
  Complement t (Complement t it) = it.
Proof.
  intros Hit Hmax. unfold Complement. split.
  - apply compute_complement_exact; assumption.
  - apply compute_complement_involutive.
    unfold int_range, INT_MIN, INT_MAX in *. lia.
Qed.

Lemma Complement_involution_witness :
  Complement (CreateTableEntries square false false (ISODUAL_TABLE_new 20)) 5
  = (num_table_entries (CreateTableEntries square false false (ISODUAL_TABLE_new 20)) - 1 - 5)%Z /\
  Complement (CreateTableEntries square false false (ISODUAL_TABLE_new 20))
    (Complement (CreateTableEntries square false false (ISODUAL_TABLE_new 20)) 5) = 5%Z.
Proof.
  apply Complement_involution; vm_compute; repeat split; discriminate.
Defined.

(** C8.  For a table size that is an [int] and an index [it] in
    [[0, size)], the complement of [it] is [it] exactly where
    [2*it == size-1]; for [size = 2^V] with [V >= 1] the complement has no
    fixed point. *)
Theorem compute_complement_fixed_point (size it : Z) :
  (0 <= it < size)%Z -> (size <= INT_MAX)%Z ->
  (compute_complement it size = it <-> (2 * it = size - 1)%Z) /\
  (forall V : Z, (1 <= V)%Z -> size = (2 ^ V)%Z -> compute_complement it size <> it).
Proof.
  intros Hit Hsize. rewrite compute_complement_exact by assumption.
  split; [lia|].
  intros V HV ->.
  replace V with (Z.succ (V - 1)) by lia.
  rewrite Z.pow_succ_r by lia. lia.
Qed.

Lemma compute_complement_fixed_point_witness :
  (compute_complement 1 3 = 1%Z <-> (2 * 1 = 3 - 1)%Z) /\
  (forall V : Z, (1 <= V)%Z -> 3%Z = (2 ^ V)%Z -> compute_complement 1 3 <> 1%Z).
Proof.
  apply compute_complement_fixed_point; [lia | vm_compute; discriminate].
Defined.

(** ** Vertex bits *)

Lemma land_pow2_eqb (n x : Z) :
  (0 <= n)%Z -> (Z.land (2 ^ n) x =? 0)%Z = negb (Z.testbit x n).
Proof.
  intros Hn. destruct (Z.testbit x n) eqn:B; simpl.
  - apply Z.eqb_neq. intros E.
    assert (T : Z.testbit (Z.land (2 ^ n) x) n = true).
    { rewrite Z.land_spec, Z.pow2_bits_true, B by lia. reflexivity. }
    rewrite E, Z.bits_0 in T. discriminate.
  - apply Z.eqb_eq. apply Z.bits_inj_0. intros m.
    rewrite Z.land_spec. destruct (Z.eq_dec n m) as [<-|Hne].
    + rewrite B. apply andb_false_r.
    + rewrite Z.pow2_bits_false by lia. reflexivity.
Qed.

(** The mask test of the code reads bit [jv] of the table index. *)
Lemma mask_test (jv : nat) (ientry : Z) :
  jv < 31 ->
  (Z.land (to_int (Z.shiftl 1 (Z.of_nat jv))) ientry =? 0)%Z
  = negb (Z.testbit ientry (Z.of_nat jv)).
Proof.
  intros Hjv. rewrite Z.shiftl_1_l.
  rewrite to_int_id; [apply land_pow2_eqb; lia|].
  unfold int_range, INT_MIN, INT_MAX.
  assert (2 ^ Z.of_nat jv <= 2 ^ 30)%Z by (apply Z.pow_le_mono_r; lia).
  assert (0 < 2 ^ Z.of_nat jv)%Z by (apply Z.pow_pos_nonneg; lia).
  lia.
Qed.

Lemma IsPositive_testbit (it : Z) (iv : nat) :
  iv < 31 -> IsPositive it (Z.of_nat iv) = Z.testbit it (Z.of_nat iv).
Proof.
  intros H. unfold IsPositive. rewrite mask_test by exact H. apply negb_involutive.
Qed.

(** Complementing an index of a table of [2^V] entries flips the bit of
    every vertex. *)
Lemma complement_testbit (V v : nat) (it : Z) :
  V <= 30 -> v < V -> (0 <= it < 2 ^ Z.of_nat V)%Z ->
  Z.testbit (compute_complement it (2 ^ Z.of_nat V)) (Z.of_nat v)
  = negb (Z.testbit it (Z.of_nat v)).
Proof.
  intros HV Hv Hit.
  assert (P : (2 ^ Z.of_nat V <= 2 ^ 30)%Z) by (apply Z.pow_le_mono_r; lia).
  rewrite compute_complement_exact by (unfold INT_MAX; lia).
  rewrite <- Z.lnot_spec by lia.
  rewrite <- (Z.mod_pow2_bits_low (Z.lnot it) (Z.of_nat V)) by lia.
  rewrite <- (Z.mod_pow2_bits_low (2 ^ Z.of_nat V - 1 - it) (Z.of_nat V)) by lia.
  f_equal. unfold Z.lnot, Z.pred.
  replace (2 ^ Z.of_nat V - 1 - it)%Z with (- it + -1 + 1 * 2 ^ Z.of_nat V)%Z by lia.
  apply Z.mod_add. lia.
Qed.

(** ** ComputeNumCubeFacetBits *)

Section FacetBits.

Variable cube : CUBE_FACE_INFO.
Variable ientry : Z.
Variable ifacet : nat.

(** The bit of the [j]'th vertex of the facet. *)
Let bit (j : nat) : bool := Z.testbit ientry (Z.of_nat (FacetVertex cube ifacet j)).

Lemma count_facet_bit_fold (l : list nat) (num_zeros num_ones : nat) :
  (forall j, In j l -> FacetVertex cube ifacet j < 31) ->
  fold_left (count_facet_bit cube ientry ifacet) l (num_zeros, num_ones)
  = (num_zeros + length (List.filter (fun j => negb (bit j)) l),
     num_ones + length (List.filter bit l)).
Proof.
  revert num_zeros num_ones.
  induction l as [|j l IH]; intros z o Hl; simpl.
  - f_equal; lia.
  - unfold count_facet_bit at 2. rewrite mask_test by (apply Hl; left; reflexivity).
    fold (bit j). destruct (bit j); simpl;
      (rewrite IH by (intros; apply Hl; right; assumption)); f_equal; lia.
Qed.

Lemma ComputeNumCubeFacetBits_count :
  (forall j, j < NumFacetVertices cube -> FacetVertex cube ifacet j < 31) ->
  ComputeNumCubeFacetBits cube ientry ifacet
  = (length (List.filter (fun j => negb (bit j)) (seq 0 (NumFacetVertices cube))),
     length (List.filter bit (seq 0 (NumFacetVertices cube)))).
Proof.
  intros H. unfold ComputeNumCubeFacetBits.
  rewrite count_facet_bit_fold; [reflexivity|].
  intros j Hj. apply H. apply in_seq in Hj. lia.
Qed.

End FacetBits.

Lemma filter_length_pos {A} (p : A -> bool) (l : list A) :
  0 < length (List.filter p l) <-> exists x, In x l /\ p x = true.
Proof.
  split.
  - destruct (List.filter p l) as [|x r] eqn:E; simpl; [lia|].
    intros _. exists x. apply filter_In. rewrite E. left. reflexivity.
  - intros [x Hx]. apply filter_In in Hx.
    destruct (List.filter p l); simpl; [contradiction | lia].
Qed.

Lemma IsCubeFacetActive_iff (cube : CUBE_FACE_INFO) (ientry : Z) (f : nat) :
  (forall j, j < NumFacetVertices cube -> FacetVertex cube f j < 31) ->
  IsCubeFacetActive cube ientry f = true <-> facet_crossed cube ientry f.
Proof.
  intros H. unfold IsCubeFacetActive.
  rewrite ComputeNumCubeFacetBits_count by exact H.
  assert (I : forall c : bool, (if c then true else false) = true <-> c = true)
    by (intros []; tauto).
  rewrite I, andb_true_iff, !Nat.ltb_lt, !filter_length_pos.
  unfold facet_crossed, facet_has_sign.
  split.
  - intros [[j0 [Hj0 Hb0]] [j1 [Hj1 Hb1]]].
    apply in_seq in Hj0, Hj1. apply negb_true_iff in Hb0.
    split; [exists j1 | exists j0]; (split; [lia | assumption]).
  - intros [[j1 [Hj1 Hb1]] [j0 [Hj0 Hb0]]].
    split; [exists j0 | exists j1]; rewrite in_seq;
      (split; [lia|]); [rewrite Hb0; reflexivity | exact Hb1].
Qed.

Lemma count_active_fold (p : nat -> bool) (l : list nat) (n : nat) :
  fold_left (fun k f => if p f then S k else k) l n = n + length (List.filter p l).
Proof.
  revert n. induction l as [|f l IH]; intros n; simpl; [lia|].
  rewrite IH. destruct (p f); simpl; lia.
Qed.

Lemma ComputeNumActiveCubeFacets_filter (cube : CUBE_FACE_INFO) (ientry : Z) :
  ComputeNumActiveCubeFacets cube ientry
  = length (List.filter (IsCubeFacetActive cube ientry) (seq 0 (NumFacets cube))).
Proof.
  unfold ComputeNumActiveCubeFacets. apply count_active_fold.
Qed.

(** C4.  [IsCubeFacetActive(ientry, f)] is true if and only if facet [f]
    has a vertex whose bit in [ientry] is 1 and a vertex whose bit is 0,
    and [ComputeNumActiveCubeFacets(ientry)] is the number of such
    facets: the length of a duplicate-free list of exactly these
    facets. *)
Theorem ComputeNumActiveCubeFacets_spec (cube : CUBE_FACE_INFO) (ientry : Z) :
  facet_vertices_shiftable cube ->
  (forall f, f < NumFacets cube ->
     (IsCubeFacetActive cube ientry f = true <-> facet_crossed cube ientry f)) /\
  (exists active : list nat,
     List.NoDup active /\
     (forall f, In f active <-> f < NumFacets cube /\ facet_crossed cube ientry f) /\
     ComputeNumActiveCubeFacets cube ientry = length active).
Proof.
  intros Hs.
  assert (A : forall f, f < NumFacets cube ->
     (IsCubeFacetActive cube ientry f = true <-> facet_crossed cube ientry f)).
  { intros f Hf. apply IsCubeFacetActive_iff. intros j Hj. apply Hs; assumption. }
  split; [exact A|].
  exists (List.filter (IsCubeFacetActive cube ientry) (seq 0 (NumFacets cube))).
  split; [|split].
  - apply List.NoDup_filter, List.seq_NoDup.
  - intros f. rewrite filter_In, in_seq. split.
    + intros [Hf Ha]. split; [lia|]. apply A; [lia | exact Ha].
    + intros [Hf Hc]. split; [lia|]. apply A; assumption.
  - apply ComputeNumActiveCubeFacets_filter.
Qed.

(** The square is a well-formed geometry. *)
Lemma square_wf : cube_wf square.
Proof.
  split; intros; cbn -[Nat.modulo]; apply Nat.mod_upper_bound; lia.
Qed.

Lemma square_shiftable : facet_vertices_shiftable square.
Proof.
  intros kf j Hkf Hj. pose proof (wf_facet_vertex square square_wf kf j Hkf Hj) as H.
  change (NumVertices square) with 4 in H. lia.
Qed.

Lemma ComputeNumActiveCubeFacets_spec_witness :
  (forall f, f < NumFacets square ->
     (IsCubeFacetActive square 5 f = true <-> facet_crossed square 5 f)) /\
  (exists active : list nat,
     List.NoDup active /\
     (forall f, In f active <-> f < NumFacets square /\ facet_crossed square 5 f) /\
     ComputeNumActiveCubeFacets square 5 = length active).
Proof.
  apply (ComputeNumActiveCubeFacets_spec square 5). exact square_shiftable.
Defined.

(** ** Facets under complement *)

Lemma filter_length_ext {A} (p q : A -> bool) (l : list A) :
  (forall x, In x l -> p x = q x) ->
  length (List.filter p l) = length (List.filter q l).
Proof.
  intros H. rewrite (List.filter_ext_in p q l H). reflexivity.
Qed.

Lemma ComputeNumCubeFacetBits_complement (cube : CUBE_FACE_INFO) (ientry : Z)
  (f : nat) :
  cube_wf cube -> NumVertices cube <= 30 -> f < NumFacets cube ->
  (0 <= ientry < 2 ^ Z.of_nat (NumVertices cube))%Z ->
  ComputeNumCubeFacetBits cube
    (compute_complement ientry (2 ^ Z.of_nat (NumVertices cube))) f
  = (snd (ComputeNumCubeFacetBits cube ientry f),
     fst (ComputeNumCubeFacetBits cube ientry f)).
Proof.
  intros Hwf HV Hf Hit.
  assert (R : forall j, j < NumFacetVertices cube ->
                        FacetVertex cube f j < NumVertices cube).
  { intros j Hj. apply (wf_facet_vertex cube Hwf); assumption. }
  rewrite !ComputeNumCubeFacetBits_count
    by (intros j Hj; specialize (R j Hj); lia).
  simpl. f_equal; apply filter_length_ext; intros j Hj;
    apply in_seq in Hj;
    rewrite complement_testbit by (try apply R; lia);
    rewrite ?negb_involutive; reflexivity.
Qed.

(** C10.  For a table of [2^V] entries over a cube with [V] vertices, a
    table index [ientry] in [[0, 2^V)] and its complement have the same
    active facets, hence the same number of active facets. *)
Theorem IsCubeFacetActive_Complement (cube : CUBE_FACE_INFO) (t : ISODUAL_TABLE)
  (ientry : Z) :
  cube_wf cube -> NumVertices cube <= 30 ->
  num_table_entries t = (2 ^ Z.of_nat (NumVertices cube))%Z ->
  (0 <= ientry < 2 ^ Z.of_nat (NumVertices cube))%Z ->
  (forall f, f < NumFacets cube ->
     IsCubeFacetActive cube ientry f
     = IsCubeFacetActive cube (Complement t ientry) f) /\
  ComputeNumActiveCubeFacets cube ientry
  = ComputeNumActiveCubeFacets cube (Complement t ientry).
Proof.
  intros Hwf HV Hn Hit. unfold Complement. rewrite Hn.
  assert (A : forall f, f < NumFacets cube ->
     IsCubeFacetActive cube ientry f
     = IsCubeFacetActive cube
         (compute_complement ientry (2 ^ Z.of_nat (NumVertices cube))) f).
  { intros f Hf. unfold IsCubeFacetActive.
    rewrite ComputeNumCubeFacetBits_complement by assumption.
    destruct (ComputeNumCubeFacetBits cube ientry f) as [z o]. simpl.
    rewrite (andb_comm (0 <? o)). reflexivity. }
  split; [exact A|].
  rewrite !ComputeNumActiveCubeFacets_filter.
  apply filter_length_ext. intros f Hf. apply in_seq in Hf. apply A. lia.
Qed.

Lemma IsCubeFacetActive_Complement_witness :
  (forall f, f < NumFacets square ->
     IsCubeFacetActive square 6 f
     = IsCubeFacetActive square
         (Complement (CreateTableEntries square false false (ISODUAL_TABLE_new 20)) 6) f) /\
  ComputeNumActiveCubeFacets square 6
  = ComputeNumActiveCubeFacets square
      (Complement (CreateTableEntries square false false (ISODUAL_TABLE_new 20)) 6).
Proof.
  apply (IsCubeFacetActive_Complement square
           (CreateTableEntries square false false (ISODUAL_TABLE_new 20)) 6).
  - exact square_wf.
  - simpl. lia.
  - reflexivity.
  - simpl. lia.
Defined.

(** ** FIND_COMPONENT: the arrays *)

Lemma VertexFlag_set_component (fc : FIND_COMPONENT) (w c v : nat) :
  VertexFlag (set_component fc w c) v = VertexFlag fc v.
Proof. reflexivity. Qed.

Lemma Component_set_component (fc : FIND_COMPONENT) (w c v : nat) :
  w < length (component fc) ->
  Component (set_component fc w c) v = if v =? w then c else Component fc v.
Proof.
  intros Hw. unfold Component, set_component. simpl.
  destruct (Nat.eqb_spec v w) as [->|Hne].
  - rewrite list_lookup_insert_eq by exact Hw. reflexivity.
  - rewrite list_lookup_insert_ne by congruence. reflexivity.
Qed.

Lemma VertexFlag_lt (fc : FIND_COMPONENT) (v : nat) :
  VertexFlag fc v = true -> v < length (vertex_flag fc).
Proof.
  unfold VertexFlag. destruct (vertex_flag fc !! v) eqn:E; simpl; [|discriminate].
  intros _. apply (lookup_lt_Some _ _ _ E).
Qed.

Lemma unvisited_insert (l : list nat) (w c : nat) :
  w < length l -> default 0 (l !! w) = 0 -> c <> 0 ->
  S (length (List.filter (Nat.eqb 0) (<[w:=c]> l)))
  = length (List.filter (Nat.eqb 0) l).
Proof.
  revert w. induction l as [|x l IH]; intros w Hw Hz Hc; simpl in Hw; [lia|].
  destruct w as [|w]; simpl in *.
  - subst x. simpl. destruct c; [congruence|]. reflexivity.
  - specialize (IH w ltac:(lia) Hz Hc).
    destruct x; simpl; lia.
Qed.

Lemma num_unvisited_set_component (fc : FIND_COMPONENT) (w c : nat) :
  w < length (component fc) -> Component fc w = 0 -> c <> 0 ->
  S (num_unvisited (set_component fc w c)) = num_unvisited fc.
Proof.
  intros. unfold num_unvisited. simpl. apply unvisited_insert; assumption.
Qed.

Lemma num_unvisited_le (fc : FIND_COMPONENT) :
  num_unvisited fc <= length (component fc).
Proof. unfold num_unvisited. apply List.filter_length_le. Qed.

(** ** Connectivity *)

Lemma connected_cls_l adj cls u v : connected adj cls u v -> cls u = true.
Proof. induction 1; assumption. Qed.

Lemma connected_cls_r adj cls u v : connected adj cls u v -> cls v = true.
Proof. destruct 1; assumption. Qed.

Lemma connected_trans adj cls u v w :
  connected adj cls u v -> connected adj cls v w -> connected adj cls u w.
Proof.
  intros Huv Hvw. induction Hvw as [v Hv | v x w Hvx IH Hadj Hw].
  - exact Huv.
  - eapply connected_step; [apply IH; exact Huv | exact Hadj | exact Hw].
Qed.

Lemma connected_sym adj cls u v :
  (forall a b, adj a b -> adj b a) ->
  connected adj cls u v -> connected adj cls v u.
Proof.
  intros Hsym H. induction H as [v Hv | u v w Huv IH Hadj Hw].
  - apply connected_refl, Hv.
  - apply connected_trans with v; [|exact IH].
    eapply connected_step;
      [apply connected_refl, Hw | apply Hsym, Hadj | eapply connected_cls_r, Huv].
Qed.

Lemma connected_ext adj adj' cls cls' u v :
  (forall a b, adj a b -> adj' a b) -> (forall a, cls a = cls' a) ->
  connected adj cls u v -> connected adj' cls' u v.
Proof.
  intros Ha Hc H. induction H as [v Hv | u v w Huv IH Hadj Hw].
  - apply connected_refl. rewrite <- Hc. exact Hv.
  - eapply connected_step; [exact IH | apply Ha, Hadj | rewrite <- Hc; exact Hw].
Qed.

(** A labelling that is closed under the steps of the class is constant
    on a path. *)
Lemma connected_closed adj cls (label : nat -> nat) u v :
  (forall a b, label a <> 0 -> adj a b -> cls b = true -> label b = label a) ->
  label u <> 0 ->
  connected adj cls u v -> label v = label u.
Proof.
  intros Hclosed Hu H. induction H as [v Hv | u v w Huv IH Hadj Hw].
  - reflexivity.
  - specialize (IH Hu). rewrite <- IH. apply Hclosed; [congruence | assumption..].
Qed.

(** ** The flood fill *)

Section Flood.

Variable nbrs : nat -> list nat.
Variable icomp : nat.
Variable fc0 : FIND_COMPONENT.
Variable i : nat.

Hypothesis icomp_nonzero : icomp <> 0.
Hypothesis sizes : length (vertex_flag fc0) = length (component fc0).

Lemma flood_core_flag fc vlist v :
  flood_core nbrs icomp fc0 i fc vlist -> VertexFlag fc v = VertexFlag fc0 v.
Proof. intros C. unfold VertexFlag. rewrite (fi_flag _ _ _ _ _ _ C). reflexivity. Qed.

Lemma flood_core_lt fc vlist v :
  flood_core nbrs icomp fc0 i fc vlist ->
  VertexFlag fc0 v = true -> v < length (component fc).
Proof.
  intros C Hv. rewrite (fi_len _ _ _ _ _ _ C), <- sizes. apply VertexFlag_lt, Hv.
Qed.

(** Marking a vertex of the class that is unvisited and next to a vertex
    of the new component keeps the core invariant. *)
Lemma flood_core_mark fc vlist j w :
  flood_core nbrs icomp fc0 i fc vlist ->
  Component fc j = icomp -> In w (nbrs j) ->
  VertexFlag fc0 w = true -> Component fc w = 0 ->
  flood_core nbrs icomp fc0 i (set_component fc w icomp) (w :: vlist).
Proof.
  intros C Hj Hw Hf Hz.
  pose proof (flood_core_lt _ _ _ C Hf) as Hlt.
  destruct C as [Cnum Cflag Clen Ckeep Cnew Cold Cstart Cwork].
  split; simpl.
  - exact Cnum.
  - exact Cflag.
  - rewrite length_insert. exact Clen.
  - intros v. rewrite Component_set_component by exact Hlt.
    destruct (v =? w); [left; reflexivity | apply Ckeep].
  - intros v. rewrite Component_set_component by exact Hlt.
    destruct (Nat.eqb_spec v w) as [->|Hne]; [|apply Cnew].
    intros _. eapply connected_step; [apply Cnew, Hj | exact Hw | exact Hf].
  - intros v Hv. rewrite Component_set_component by exact Hlt.
    destruct (Nat.eqb_spec v w) as [->|Hne]; [|apply Cold, Hv].
    destruct (Ckeep w) as [E|E]; lia.
  - rewrite Component_set_component by exact Hlt.
    destruct (i =? w); [reflexivity | exact Cstart].
  - intros v Hv. rewrite Component_set_component by exact Hlt.
    destruct (Nat.eqb_spec v w) as [->|Hne]; [reflexivity|].
    apply Cwork. destruct Hv as [Hv|Hv]; [lia | exact Hv].
Qed.

Lemma settled_mark fc w v :
  w < length (component fc) ->
  settled nbrs fc0 fc v -> settled nbrs fc0 (set_component fc w icomp) v.
Proof.
  intros Hlt S x Hx Hf. rewrite Component_set_component by exact Hlt.
  destruct (x =? w); [exact icomp_nonzero | apply S; assumption].
Qed.

(** One neighbour [w] of [j]. *)
Lemma visit_step j seen fc vlist w :
  visit_inv nbrs icomp fc0 i j seen fc vlist -> In w (nbrs j) ->
  visit_inv nbrs icomp fc0 i j (seen ++ [w])
    (fst (visit icomp (fc, vlist) w)) (snd (visit icomp (fc, vlist) w)) /\
  num_unvisited (fst (visit icomp (fc, vlist) w))
  + length (snd (visit icomp (fc, vlist) w))
  = num_unvisited fc + length vlist.
Proof.
  intros [C [Hj [Hdone Hseen]]] Hw. unfold visit. simpl.
  rewrite (flood_core_flag _ _ w C).
  destruct (VertexFlag fc0 w) eqn:Hf; simpl;
    [destruct (Nat.eqb_spec (Component fc w) 0) as [Hz|Hnz]|]; simpl.
  - (* [w] joins the component *)
    pose proof (flood_core_lt _ _ _ C Hf) as Hlt.
    split.
    + split; [|split; [|split]].
      * apply flood_core_mark with j; assumption.
      * rewrite Component_set_component by exact Hlt.
        destruct (j =? w); [reflexivity | exact Hj].
      * intros v. rewrite Component_set_component by exact Hlt.
        destruct (Nat.eqb_spec v w) as [->|Hne].
        -- intros _. right. left. left. reflexivity.
        -- intros Hv. destruct (Hdone v Hv) as [D|[D|D]].
           ++ left. exact D.
           ++ right. left. right. exact D.
           ++ right. right. apply settled_mark; assumption.
      * intros x Hx Hfx. rewrite Component_set_component by exact Hlt.
        destruct (Nat.eqb_spec x w) as [->|Hne]; [exact icomp_nonzero|].
        apply in_app_or in Hx. destruct Hx as [Hx|[Hx|[]]].
        -- apply Hseen; assumption.
        -- congruence.
    + rewrite <- (num_unvisited_set_component fc w icomp Hlt Hz icomp_nonzero).
      simpl. lia.
  - (* [w] was visited before *)
    split; [|reflexivity].
    split; [exact C | split; [exact Hj | split; [exact Hdone|]]].
    intros x Hx Hfx. apply in_app_or in Hx. destruct Hx as [Hx|[<-|[]]].
    + apply Hseen; assumption.
    + exact Hnz.
  - (* [w] is not in the class *)
    split; [|reflexivity].
    split; [exact C | split; [exact Hj | split; [exact Hdone|]]].
    intros x Hx Hfx. apply in_app_or in Hx. destruct Hx as [Hx|[<-|[]]].
    + apply Hseen; assumption.
    + congruence.
Qed.

(** All the neighbours of [j]. *)
Lemma visit_fold j ns : forall seen fc vlist,
  (forall w, In w ns -> In w (nbrs j)) ->
  visit_inv nbrs icomp fc0 i j seen fc vlist ->
  visit_inv nbrs icomp fc0 i j (seen ++ ns)
    (fst (fold_left (visit icomp) ns (fc, vlist)))
    (snd (fold_left (visit icomp) ns (fc, vlist))) /\
  num_unvisited (fst (fold_left (visit icomp) ns (fc, vlist)))
  + length (snd (fold_left (visit icomp) ns (fc, vlist)))
  = num_unvisited fc + length vlist.
Proof.
  induction ns as [|w ns IH]; intros seen fc vlist Hns Hinv; simpl.
  - rewrite app_nil_r. split; [exact Hinv | reflexivity].
  - destruct (visit_step j seen fc vlist w Hinv) as [Hinv' Hm];
      [apply Hns; left; reflexivity|].
    destruct (visit icomp (fc, vlist) w) as [fc' vlist'] eqn:E. simpl in *.
    destruct (IH (seen ++ [w]) fc' vlist') as [Hinv'' Hm'];
      [intros x Hx; apply Hns; right; exact Hx | exact Hinv' |].
    rewrite <- app_assoc in Hinv''. simpl in Hinv''.
    split; [exact Hinv'' | lia].
Qed.

(** The work-list loop ends with an empty work list when the fuel
    exceeds the number of unvisited vertices plus the length of the work
    list. *)
Lemma search_loop_spec fuel : forall fc vlist,
  flood_inv nbrs icomp fc0 i fc vlist ->
  num_unvisited fc + length vlist < fuel ->
  flood_inv nbrs icomp fc0 i (search_loop fuel nbrs icomp fc vlist) [].
Proof.
  induction fuel as [|fuel IH]; intros fc vlist Hinv Hfuel; [lia|].
  destruct vlist as [|j rest]; simpl; [exact Hinv|].
  destruct Hinv as [C Hdone].
  assert (Hv : visit_inv nbrs icomp fc0 i j [] fc rest).
  { split; [|split; [|split]].
    - destruct C as [Cnum Cflag Clen Ckeep Cnew Cold Cstart Cwork].
      split; try assumption. intros v Hv. apply Cwork. right. exact Hv.
    - apply (fi_work _ _ _ _ _ _ C). left. reflexivity.
    - intros v Hv. destruct (Hdone v Hv) as [[D|D]|D]; auto.
    - intros w []. }
  destruct (visit_fold j (nbrs j) [] fc rest (fun w H => H) Hv)
    as [[C' [Hj [Hdone' Hseen]]] Hm].
  simpl in Hm, Hfuel. apply IH; [|lia].
  split; [exact C'|].
  intros v Hv'. destruct (Hdone' v Hv') as [->|[D|D]].
  - right. intros w Hw Hf. apply Hseen; assumption.
  - left. exact D.
  - right. exact D.
Qed.

End Flood.

(** ** Search *)

Section SearchFrom.

Variable nbrs : nat -> list nat.
Variable icomp : nat.
Variable fc0 : FIND_COMPONENT.
Variable i : nat.

Hypothesis nbrs_sym : forall u w, In w (nbrs u) -> In u (nbrs w).
Hypothesis icomp_nonzero : icomp <> 0.
Hypothesis flag_size : length (vertex_flag fc0) = length (component fc0).
Hypothesis comp_size : length (component fc0) = num_cube_vertices fc0.
Hypothesis fresh : forall v, Component fc0 v <> icomp.
Hypothesis start_flag : VertexFlag fc0 i = true.
Hypothesis start_new : Component fc0 i = 0.

Lemma search_from_inv :
  flood_inv nbrs icomp fc0 i (search_from nbrs fc0 i icomp) [].
Proof.
  pose proof (VertexFlag_lt fc0 i start_flag) as Hlt. rewrite flag_size in Hlt.
  unfold search_from. apply (search_loop_spec nbrs icomp fc0 i icomp_nonzero flag_size).
  - split; [split; simpl|].
    + reflexivity.
    + reflexivity.
    + apply length_insert.
    + intros v. rewrite Component_set_component by exact Hlt.
      destruct (v =? i); [left|right]; reflexivity.
    + intros v. rewrite Component_set_component by exact Hlt.
      destruct (Nat.eqb_spec v i) as [->|Hne].
      * intros _. apply connected_refl, start_flag.
      * intros E. destruct (fresh v E).
    + intros v Hv. rewrite Component_set_component by exact Hlt.
      destruct (Nat.eqb_spec v i) as [->|Hne]; [contradiction | reflexivity].
    + rewrite Component_set_component by exact Hlt.
      rewrite Nat.eqb_refl. reflexivity.
    + intros v [<-|[]]. rewrite Component_set_component by exact Hlt.
      rewrite Nat.eqb_refl. reflexivity.
    + intros v. rewrite Component_set_component by exact Hlt.
      destruct (Nat.eqb_spec v i) as [->|Hne].
      * intros _. left. left. reflexivity.
      * intros E. destruct (fresh v E).
  - pose proof (num_unvisited_set_component fc0 i icomp Hlt start_new icomp_nonzero).
    pose proof (num_unvisited_le fc0). simpl. lia.
Qed.

(** The component that [Search] adds is closed under the steps of the
    class, provided the components found before are. *)
Lemma search_from_closed :
  (forall u w, Component fc0 u <> 0 -> In w (nbrs u) ->
               VertexFlag fc0 w = true -> Component fc0 w = Component fc0 u) ->
  forall v w, Component (search_from nbrs fc0 i icomp) v = icomp ->
              In w (nbrs v) -> VertexFlag fc0 w = true ->
              Component (search_from nbrs fc0 i icomp) w = icomp.
Proof.
  intros Hclosed v w Hv Hw Hf.
  destruct search_from_inv as [C Hdone].
  set (fc := search_from nbrs fc0 i icomp) in *.
  destruct (Hdone v Hv) as [[]|S].
  specialize (S w Hw Hf).
  destruct (fi_keep _ _ _ _ _ _ C w) as [E|E]; [exact E|].
  exfalso.
  assert (Hw0 : Component fc0 w <> 0) by lia.
  assert (Hfv : VertexFlag fc0 v = true).
  { eapply connected_cls_r. apply (fi_new _ _ _ _ _ _ C). exact Hv. }
  pose proof (Hclosed w v Hw0 (nbrs_sym v w Hw) Hfv) as Ev.
  assert (Hv0 : Component fc0 v <> 0) by lia.
  pose proof (fi_old _ _ _ _ _ _ C v Hv0) as E'.
  apply (fresh v). lia.
Qed.

End SearchFrom.

(** ** The loop over the vertices *)

Section Components.

Variable nbrs : nat -> list nat.
Variable fc0 : FIND_COMPONENT.

Hypothesis nbrs_sym : forall u w, In w (nbrs u) -> In u (nbrs w).
Hypothesis flag_size : length (vertex_flag fc0) = num_cube_vertices fc0.
Hypothesis comp_size : length (component fc0) = num_cube_vertices fc0.

Lemma components_inv_flag processed fc n v :
  components_inv nbrs fc0 processed fc n -> VertexFlag fc v = VertexFlag fc0 v.
Proof. intros K. unfold VertexFlag. rewrite (ci_flag _ _ _ _ _ K). reflexivity. Qed.

(** A vertex that starts a component. *)
Lemma start_component_new processed fc n v :
  components_inv nbrs fc0 processed fc n ->
  Component fc v = 0 -> VertexFlag fc0 v = true ->
  components_inv nbrs fc0 (processed ++ [v]) (search_from nbrs fc v (S n)) (S n).
Proof.
  intros K Hz Hf.
  assert (FE : forall x, VertexFlag fc x = VertexFlag fc0 x)
    by (intros x; eapply components_inv_flag, K).
  destruct K as [Knum Kflag Klen Kle Kcls Kclosed Kconn Kproc Krep].
  assert (Hsz1 : length (vertex_flag fc) = length (component fc)) by congruence.
  assert (Hsz2 : length (component fc) = num_cube_vertices fc) by congruence.
  assert (Hfresh : forall x, Component fc x <> S n)
    by (intros x; specialize (Kle x); lia).
  assert (Hf' : VertexFlag fc v = true) by (rewrite FE; exact Hf).
  assert (Hcl : forall u w, Component fc u <> 0 -> In w (nbrs u) ->
                            VertexFlag fc w = true -> Component fc w = Component fc u).
  { intros u w Hu Hw Hfw. apply Kclosed; [assumption..|]. rewrite <- FE. exact Hfw. }
  pose proof (search_from_closed nbrs (S n) fc v nbrs_sym (Nat.neq_succ_0 n)
                Hsz1 Hsz2 Hfresh Hf' Hz Hcl) as Snew.
  destruct (search_from_inv nbrs (S n) fc v (Nat.neq_succ_0 n)
              Hsz1 Hsz2 Hfresh Hf' Hz) as [C _].
  set (fc' := search_from nbrs fc v (S n)) in *.
  destruct C as [Cnum Cflag Clen Ckeep Cnew Cold Cstart Cwork].
  assert (Cnew' : forall x, Component fc' x = S n ->
            connected (fun a b => In b (nbrs a)) (VertexFlag fc0) v x).
  { intros x Hx. eapply connected_ext; [| exact FE | apply Cnew, Hx]. auto. }
  split.
  - congruence.
  - congruence.
  - congruence.
  - intros x. destruct (Ckeep x) as [E|E]; [lia|]. specialize (Kle x). lia.
  - intros x Hx. destruct (Ckeep x) as [E|E].
    + eapply connected_cls_r, Cnew', E.
    + apply Kcls. lia.
  - intros u w Hu Hw Hfw. destruct (Ckeep u) as [E|E].
    + rewrite E. apply Snew with u; [exact E | exact Hw |]. rewrite FE. exact Hfw.
    + assert (Hu0 : Component fc u <> 0) by lia.
      pose proof (Kclosed u w Hu0 Hw Hfw) as Ew.
      rewrite (Cold w) by lia. lia.
  - intros u x Hu Hux. destruct (Ckeep u) as [E|E].
    + apply connected_trans with v.
      * apply connected_sym; [exact nbrs_sym | apply Cnew', E].
      * apply Cnew'. lia.
    + assert (Hu0 : Component fc u <> 0) by lia.
      destruct (Ckeep x) as [E'|E'].
      * specialize (Kle u). lia.
      * apply Kconn; lia.
  - intros x Hx Hfx. apply in_app_or in Hx. destruct Hx as [Hx|[<-|[]]].
    + pose proof (Kproc x Hx Hfx) as Hx0. rewrite (Cold x) by exact Hx0. exact Hx0.
    + lia.
  - intros c Hc. destruct (Nat.eq_dec c (S n)) as [->|Hne].
    + exists v. exact Cstart.
    + destruct (Krep c ltac:(lia)) as [x Hx]. exists x.
      rewrite (Cold x) by lia. exact Hx.
Qed.

(** One iteration. *)
Lemma start_component_step processed fc n v :
  components_inv nbrs fc0 processed fc n ->
  components_inv nbrs fc0 (processed ++ [v])
    (fst (start_component (search_from nbrs) (fc, n) v))
    (snd (start_component (search_from nbrs) (fc, n) v)).
Proof.
  intros K. unfold start_component. simpl.
  rewrite (components_inv_flag _ _ _ v K).
  destruct (Nat.eqb_spec (Component fc v) 0) as [Hz|Hnz];
    [destruct (VertexFlag fc0 v) eqn:Hf|]; simpl.
  - apply start_component_new; assumption.
  - destruct K as [Knum Kflag Klen Kle Kcls Kclosed Kconn Kproc Krep].
    split; try assumption.
    intros x Hx Hfx. apply in_app_or in Hx. destruct Hx as [Hx|[<-|[]]].
    + apply Kproc; assumption.
    + congruence.
  - destruct K as [Knum Kflag Klen Kle Kcls Kclosed Kconn Kproc Krep].
    split; try assumption.
    intros x Hx Hfx. apply in_app_or in Hx. destruct Hx as [Hx|[<-|[]]].
    + apply Kproc; assumption.
    + exact Hnz.
Qed.

Lemma start_component_fold vs : forall processed fc n,
  components_inv nbrs fc0 processed fc n ->
  components_inv nbrs fc0 (processed ++ vs)
    (fst (fold_left (start_component (search_from nbrs)) vs (fc, n)))
    (snd (fold_left (start_component (search_from nbrs)) vs (fc, n))).
Proof.
  induction vs as [|v vs IH]; intros processed fc n K; simpl.
  - rewrite app_nil_r. exact K.
  - pose proof (start_component_step processed fc n v K) as K'.
    destruct (start_component (search_from nbrs) (fc, n) v) as [fc' n'].
    simpl in K'. apply IH in K'. rewrite <- app_assoc in K'. exact K'.
Qed.

(** Before the loop: nothing is visited. *)
Lemma components_inv_init :
  (forall v, Component fc0 v = 0) -> components_inv nbrs fc0 [] fc0 0.
Proof.
  intros Hz. split; try reflexivity.
  - intros v. rewrite Hz. lia.
  - intros v Hv. destruct (Hv (Hz v)).
  - intros u w Hu. destruct (Hu (Hz u)).
  - intros u v Hu. destruct (Hu (Hz u)).
  - intros v [].
  - intros c Hc. lia.
Qed.

End Components.

(** A labelling as the loop leaves it counts the components of the
    class. *)
Lemma components_inv_count nbrs fc0 processed fc n :
  components_inv nbrs fc0 processed fc n ->
  (forall v, VertexFlag fc0 v = true -> In v processed) ->
  is_component_count (fun a b => In b (nbrs a)) (VertexFlag fc0) n.
Proof.
  intros [Knum Kflag Klen Kle Kcls Kclosed Kconn Kproc Krep] Hall.
  assert (R : forall k, k <= n ->
            exists reps, List.map (Component fc) reps = seq 1 k).
  { induction k as [|k IH]; intros Hk.
    - exists []. reflexivity.
    - destruct (IH ltac:(lia)) as [reps Hreps].
      destruct (Krep (S k) ltac:(lia)) as [v Hv].
      exists (reps ++ [v]).
      rewrite List.map_app, Hreps, seq_S. simpl. rewrite Hv. reflexivity. }
  destruct (R n (le_n n)) as [reps Hreps].
  assert (Hlabel : forall r, In r reps -> 1 <= Component fc r <= n).
  { intros r Hr. apply (List.in_map (Component fc)) in Hr.
    rewrite Hreps in Hr. apply in_seq in Hr. lia. }
  exists reps. split; [|split; [|split; [|split]]].
  - rewrite <- (List.length_map (Component fc)), Hreps. apply length_seq.
  - apply (List.NoDup_map_inv (Component fc)). rewrite Hreps. apply List.seq_NoDup.
  - intros r Hr. apply Kcls. specialize (Hlabel r Hr). lia.
  - intros r r' Hr Hr' Hc.
    assert (E : Component fc r' = Component fc r).
    { apply (connected_closed (fun a b => In b (nbrs a)) (VertexFlag fc0)
               (Component fc) r r'); [|specialize (Hlabel r Hr); lia | exact Hc].
      intros a b Ha Hab Hb. apply Kclosed; assumption. }
    assert (Hnd : List.NoDup (List.map (Component fc) reps))
      by (rewrite Hreps; apply List.seq_NoDup).
    clear - Hnd Hr Hr' E. induction reps as [|x reps IH]; [destruct Hr|].
    simpl in Hnd. inversion Hnd as [|y l Hx Hnd']; subst.
    destruct Hr as [->|Hr], Hr' as [->|Hr'].
    + reflexivity.
    + exfalso. apply Hx. rewrite <- E. apply List.in_map, Hr'.
    + exfalso. apply Hx. rewrite E. apply List.in_map, Hr.
    + apply IH; assumption.
  - intros v Hv.
    pose proof (Kproc v (Hall v Hv) Hv) as Hv0.
    assert (Hin : In (Component fc v) (List.map (Component fc) reps)).
    { rewrite Hreps. apply in_seq. specialize (Kle v). lia. }
    apply List.in_map_iff in Hin. destruct Hin as [r [Er Hr]].
    exists r. split; [exact Hr|]. apply Kconn; [|exact Er].
    specialize (Hlabel r Hr). lia.
Qed.

(** ** ComputeNumComponents *)

Lemma edge_neighbors_adjacent (cube : CUBE_FACE_INFO) (v w : nat) :
  In w (edge_neighbors cube v) <-> adjacent cube v w.
Proof.
  unfold edge_neighbors, adjacent. rewrite in_flat_map. split.
  - intros [ie [Hie Hw]]. apply in_seq in Hie. exists ie. split; [lia|].
    destruct (Nat.eqb_spec (EdgeEndpoint cube ie 0) v) as [E0|N0].
    + destruct Hw as [<-|[]]. left. split; [exact E0 | reflexivity].
    + destruct (Nat.eqb_spec (EdgeEndpoint cube ie 1) v) as [E1|N1];
        [|destruct Hw].
      destruct Hw as [<-|[]]. right. split; [reflexivity | exact E1].
  - intros [ie [Hie H]]. exists ie. split; [apply in_seq; lia|].
    destruct (Nat.eqb_spec (EdgeEndpoint cube ie 0) v) as [E0|N0].
    + destruct H as [[_ <-]|[<- E1]]; left; congruence.
    + destruct H as [[E0 _]|[<- E1]]; [contradiction|].
      rewrite E1, Nat.eqb_refl. left. reflexivity.
Qed.

Lemma adjacent_sym (cube : CUBE_FACE_INFO) (v w : nat) :
  adjacent cube v w -> adjacent cube w v.
Proof. intros [ie [Hie H]]. exists ie. split; [exact Hie | tauto]. Qed.

Lemma edge_neighbors_sym (cube : CUBE_FACE_INFO) (v w : nat) :
  In w (edge_neighbors cube v) -> In v (edge_neighbors cube w).
Proof. rewrite !edge_neighbors_adjacent. apply adjacent_sym. Qed.

Lemma Component_replicate (n v : nat) : default 0 (replicate n 0 !! v) = 0.
Proof.
  destruct (replicate n 0 !! v) as [x|] eqn:E; [|reflexivity].
  apply lookup_replicate in E. destruct E as [-> _]. reflexivity.
Qed.

Lemma prepare_num fc ientry b :
  num_cube_vertices (prepare fc ientry b) = num_cube_vertices fc.
Proof. unfold prepare. destruct b; reflexivity. Qed.

Lemma prepare_flag_size fc ientry b :
  length (vertex_flag (prepare fc ientry b)) = num_cube_vertices fc.
Proof.
  unfold prepare. destruct b; simpl;
    rewrite !length_fmap, length_seq; reflexivity.
Qed.

Lemma prepare_comp_size fc ientry b :
  length (component (prepare fc ientry b)) = num_cube_vertices fc.
Proof. unfold prepare. destruct b; simpl; apply length_replicate. Qed.

Lemma prepare_Component fc ientry b v : Component (prepare fc ientry b) v = 0.
Proof.
  unfold prepare, Component. destruct b; simpl; apply Component_replicate.
Qed.

(** The flags of the prepared state are the sign class. *)
Lemma prepare_VertexFlag cube fc ientry b v :
  num_cube_vertices fc = NumVertices cube ->
  VertexFlag (prepare fc ientry b) v = sign_class cube ientry b v.
Proof.
  intros Hn. unfold sign_class. rewrite <- Hn.
  unfold prepare, VertexFlag.
  destruct (Nat.ltb_spec v (num_cube_vertices fc)) as [Hv|Hv].
  - destruct b; simpl; rewrite !list_lookup_fmap,
      lookup_seq_lt by exact Hv; simpl;
      destruct (Z.testbit ientry (Z.of_nat v)); reflexivity.
  - destruct b; simpl; rewrite !list_lookup_fmap,
      lookup_seq_ge by exact Hv; reflexivity.
Qed.

Lemma sign_class_lt cube ientry b v :
  sign_class cube ientry b v = true -> v < NumVertices cube.
Proof.
  unfold sign_class. intros H. apply andb_true_iff in H. destruct H as [H _].
  apply Nat.ltb_lt, H.
Qed.

(** The state that [ComputeNumComponents] leaves satisfies the loop
    invariant with every vertex processed. *)
Lemma ComputeNumComponents_inv cube fc ientry b :
  components_inv (edge_neighbors cube) (prepare fc ientry b)
    (seq 0 (num_cube_vertices fc))
    (fst (ComputeNumComponents cube fc ientry b))
    (snd (ComputeNumComponents cube fc ientry b)).
Proof.
  assert (Hf : length (vertex_flag (prepare fc ientry b))
               = num_cube_vertices (prepare fc ientry b))
    by (rewrite prepare_flag_size, prepare_num; reflexivity).
  assert (Hc : length (component (prepare fc ientry b))
               = num_cube_vertices (prepare fc ientry b))
    by (rewrite prepare_comp_size, prepare_num; reflexivity).
  unfold ComputeNumComponents.
  apply (start_component_fold (edge_neighbors cube) (prepare fc ientry b)
           (edge_neighbors_sym cube) Hf Hc
           (seq 0 (num_cube_vertices fc)) [] (prepare fc ientry b) 0).
  apply components_inv_init; [exact Hf | exact Hc | apply prepare_Component].
Qed.

(** C5.  For a [FIND_COMPONENT] of the cube, every table index [ientry]
    and either value of [flag_positive], [ComputeNumComponents(ientry,
    flag_positive)] returns the number of connected components of the
    positive (or negative) vertices of [ientry] in the graph of the cube
    edges. *)
Theorem ComputeNumComponents_spec (cube : CUBE_FACE_INFO) (fc : FIND_COMPONENT)
  (ientry : Z) (flag_positive : bool) :
  num_cube_vertices fc = NumVertices cube ->
  is_component_count (adjacent cube) (sign_class cube ientry flag_positive)
    (snd (ComputeNumComponents cube fc ientry flag_positive)).
Proof.
  intros Hn.
  pose proof (ComputeNumComponents_inv cube fc ientry flag_positive) as K.
  apply components_inv_count in K.
  - destruct K as [reps [Hlen [Hnd [Hcls [Hsep Hcov]]]]].
    assert (FE : forall v, VertexFlag (prepare fc ientry flag_positive) v
                           = sign_class cube ientry flag_positive v)
      by (intros v; apply prepare_VertexFlag, Hn).
    exists reps. split; [exact Hlen | split; [exact Hnd | split; [|split]]].
    + intros r Hr. rewrite <- FE. apply Hcls, Hr.
    + intros r r' Hr Hr' Hc. apply Hsep; [assumption..|].
      eapply connected_ext; [| | exact Hc].
      * intros a c. apply edge_neighbors_adjacent.
      * intros a. symmetry. apply FE.
    + intros v Hv. rewrite <- FE in Hv. destruct (Hcov v Hv) as [r [Hr Hc]].
      exists r. split; [exact Hr|].
      eapply connected_ext; [| | exact Hc].
      * intros a c. apply edge_neighbors_adjacent.
      * exact FE.
  - intros v Hv. rewrite (prepare_VertexFlag cube) in Hv by exact Hn.
    apply sign_class_lt in Hv. apply in_seq. lia.
Qed.

Lemma ComputeNumComponents_spec_witness :
  is_component_count (adjacent square) (sign_class square 5 true)
    (snd (ComputeNumComponents square (FIND_COMPONENT_new square) 5 true)).
Proof.
  apply (ComputeNumComponents_spec square (FIND_COMPONENT_new square) 5 true).
  reflexivity.
Defined.

(** The count is determined by the class: two lists with one vertex of
    every component have the same length. *)
Lemma transversal_le {A} (R : A -> A -> Prop) (l1 : list A) : forall l2 : list A,
  List.NoDup l1 ->
  (forall x, In x l1 -> exists y, In y l2 /\ R x y) ->
  (forall x x' y, In x l1 -> In x' l1 -> R x y -> R x' y -> x = x') ->
  length l1 <= length l2.
Proof.
  induction l1 as [|x l1 IH]; intros l2 Hnd Hex Hinj; simpl; [lia|].
  inversion Hnd as [|x0 l0 Hx Hnd']; subst.
  destruct (Hex x (or_introl eq_refl)) as [y [Hy Rxy]].
  apply List.in_split in Hy. destruct Hy as [a [c ->]].
  rewrite length_app. simpl.
  assert (length l1 <= length (a ++ c)); [|rewrite length_app in *; lia].
  apply IH; [exact Hnd' | |].
  - intros x' Hx'. destruct (Hex x' (or_intror Hx')) as [y' [Hy' Rxy']].
    exists y'. split; [|exact Rxy'].
    apply in_app_or in Hy'. apply in_or_app.
    destruct Hy' as [Hy'|[<-|Hy']]; [left; exact Hy' | | right; exact Hy'].
    exfalso. apply Hx.
    rewrite (Hinj x x' y (or_introl eq_refl) (or_intror Hx') Rxy Rxy'). exact Hx'.
  - intros u u' z Hu Hu'. apply Hinj; right; assumption.
Qed.

Lemma is_component_count_unique adj cls n m :
  (forall a b, adj a b -> adj b a) ->
  is_component_count adj cls n -> is_component_count adj cls m -> n = m.
Proof.
  intros Hsym [r1 [L1 [N1 [C1 [S1 V1]]]]] [r2 [L2 [N2 [C2 [S2 V2]]]]].
  assert (A : forall ra rb : list nat,
    List.NoDup ra ->
    (forall r, In r ra -> cls r = true) ->
    (forall r r', In r ra -> In r' ra -> connected adj cls r r' -> r = r') ->
    (forall v, cls v = true -> exists r, In r rb /\ connected adj cls r v) ->
    length ra <= length rb).
  { intros ra rb Na Ca Sa Vb.
    apply (transversal_le (fun x y => connected adj cls y x)); [exact Na | |].
    - intros x Hx. apply Vb, Ca, Hx.
    - intros x x' y Hx Hx' Hyx Hyx'. apply Sa; [assumption..|].
      apply connected_trans with y; [|exact Hyx'].
      apply connected_sym; assumption. }
  pose proof (A r1 r2 N1 C1 S1 V2). pose proof (A r2 r1 N2 C2 S2 V1). lia.
Qed.

(** ** The components the table is built from *)

Lemma labelled_flag fc0 fc n v :
  labelled fc0 fc n -> VertexFlag fc v = VertexFlag fc0 v.
Proof. intros L. unfold VertexFlag. rewrite (lb_flag _ _ _ L). reflexivity. Qed.

(** There are at most as many components as vertices. *)
Lemma labelled_bound fc0 fc n :
  labelled fc0 fc n -> n <= length (vertex_flag fc0).
Proof.
  intros L.
  pose proof (transversal_le
    (fun c v => VertexFlag fc0 v = true /\ Component fc v = c)
    (seq 1 n) (seq 0 (length (vertex_flag fc0)))) as T.
  rewrite !length_seq in T. apply T.
  - apply List.seq_NoDup.
  - intros c Hc. apply in_seq in Hc.
    destruct (lb_rep _ _ _ L c ltac:(lia)) as [v [Hf Hv]].
    exists v. split; [|split; assumption].
    apply in_seq. pose proof (VertexFlag_lt fc0 v Hf). lia.
  - intros c c' v _ _ [_ E] [_ E']. congruence.
Qed.

Lemma ComputeNumComponents_labelled cube fc ientry b :
  labelled (prepare fc ientry b)
    (fst (ComputeNumComponents cube fc ientry b))
    (snd (ComputeNumComponents cube fc ientry b)).
Proof.
  destruct (ComputeNumComponents_inv cube fc ientry b)
    as [Knum Kflag Klen Kle Kcls Kclosed Kconn Kproc Krep].
  split; try assumption.
  - intros v Hv. apply Kproc; [|exact Hv].
    apply VertexFlag_lt in Hv. rewrite prepare_flag_size in Hv.
    apply in_seq. lia.
  - intros c Hc. destruct (Krep c Hc) as [v Hv]. exists v.
    split; [apply Kcls; lia | exact Hv].
Qed.

(** Moving the opposite vertex to a new component keeps the labelling. *)
Lemma separate_opposite_labelled cube fc0 fc n v :
  length (vertex_flag fc0) = length (component fc0) ->
  labelled fc0 fc n ->
  labelled fc0 (fst (separate_opposite cube (fc, n) v))
    (snd (separate_opposite cube (fc, n) v)).
Proof.
  intros Hsz L. unfold separate_opposite. simpl.
  set (w := OppositeVertex cube v).
  rewrite !(labelled_flag fc0 fc n) by exact L.
  destruct (Nat.ltb_spec v w) as [Hvw|Hvw]; simpl; [|exact L].
  destruct (VertexFlag fc0 v) eqn:Hfv; simpl; [|exact L].
  destruct (VertexFlag fc0 w) eqn:Hfw; simpl; [|exact L].
  destruct (Nat.eqb_spec (Component fc v) (Component fc w)) as [E|NE];
    simpl; [|exact L].
  destruct L as [Lnum Lflag Llen Lle Lcls Lrep].
  assert (Hlt : w < length (component fc)).
  { rewrite Llen, <- Hsz. apply VertexFlag_lt, Hfw. }
  split; simpl.
  - exact Lnum.
  - exact Lflag.
  - rewrite length_insert. exact Llen.
  - intros x. rewrite Component_set_component by exact Hlt.
    destruct (x =? w); [lia|]. specialize (Lle x). lia.
  - intros x Hx. rewrite Component_set_component by exact Hlt.
    destruct (x =? w); [lia | apply Lcls, Hx].
  - intros c Hc. destruct (Nat.eq_dec c (S n)) as [->|Hne].
    + exists w. split; [exact Hfw|].
      rewrite Component_set_component by exact Hlt.
      rewrite Nat.eqb_refl. reflexivity.
    + destruct (Lrep c ltac:(lia)) as [x [Hfx Hx]].
      destruct (Nat.eq_dec x w) as [->|Hxw].
      * exists v. split; [exact Hfv|].
        rewrite Component_set_component by exact Hlt.
        destruct (Nat.eqb_spec v w) as [Evw|_]; lia.
      * exists x. split; [exact Hfx|].
        rewrite Component_set_component by exact Hlt.
        destruct (Nat.eqb_spec x w) as [Exw|_]; [contradiction | exact Hx].
Qed.

Lemma separate_opposite_fold cube fc0 vs : forall fc n,
  length (vertex_flag fc0) = length (component fc0) ->
  labelled fc0 fc n ->
  labelled fc0 (fst (fold_left (separate_opposite cube) vs (fc, n)))
    (snd (fold_left (separate_opposite cube) vs (fc, n))).
Proof.
  induction vs as [|v vs IH]; intros fc n Hsz L; simpl; [exact L|].
  pose proof (separate_opposite_labelled cube fc0 fc n v Hsz L) as L'.
  destruct (separate_opposite cube (fc, n) v) as [fc' n']. simpl in L'.
  apply IH; assumption.
Qed.

Lemma sign_components_labelled cube fc it b so :
  labelled (prepare fc it b)
    (fst (sign_components cube fc it b so))
    (snd (sign_components cube fc it b so)).
Proof.
  unfold sign_components.
  pose proof (ComputeNumComponents_labelled cube fc it b) as L.
  destruct so; [|exact L].
  destruct (ComputeNumComponents cube fc it b) as [fc' n]. simpl in *.
  apply separate_opposite_fold; [|exact L].
  rewrite prepare_flag_size, prepare_comp_size. reflexivity.
Qed.

(** What the table needs of the components of a sign class. *)
Lemma sign_components_spec cube fc it b so :
  num_cube_vertices fc = NumVertices cube ->
  num_cube_vertices (fst (sign_components cube fc it b so)) = NumVertices cube /\
  (forall v, VertexFlag (fst (sign_components cube fc it b so)) v
             = sign_class cube it b v) /\
  (forall v, sign_class cube it b v = true ->
             1 <= Component (fst (sign_components cube fc it b so)) v
               <= snd (sign_components cube fc it b so)) /\
  snd (sign_components cube fc it b so) <= NumVertices cube /\
  ((forall v, sign_class cube it b v = false) ->
   snd (sign_components cube fc it b so) = 0).
Proof.
  intros Hn. pose proof (sign_components_labelled cube fc it b so) as L.
  assert (FE : forall v, VertexFlag (fst (sign_components cube fc it b so)) v
                         = sign_class cube it b v).
  { intros v. rewrite (labelled_flag _ _ _ v L). apply prepare_VertexFlag, Hn. }
  split; [|split; [|split; [|split]]].
  - rewrite (lb_num _ _ _ L), prepare_num. exact Hn.
  - exact FE.
  - intros v Hv. rewrite <- (prepare_VertexFlag cube fc) in Hv by exact Hn.
    pose proof (lb_cls _ _ _ L v Hv). pose proof (lb_le _ _ _ L v). lia.
  - pose proof (labelled_bound _ _ _ L) as B.
    rewrite prepare_flag_size in B. lia.
  - intros Hempty.
    destruct (snd (sign_components cube fc it b so)) as [|k] eqn:E; [reflexivity|].
    destruct (lb_rep _ _ _ L 1) as [v [Hv _]]; [lia|].
    rewrite (prepare_VertexFlag cube fc) in Hv by exact Hn.
    rewrite Hempty in Hv. discriminate.
Qed.

(** ** The built table *)

Lemma deref_fmap_seq {A} (f : nat -> A) (n : nat) (i : Z) :
  (0 <= i < Z.of_nat n)%Z ->
  deref (Some (f <$> seq 0 n)) i = Value (f (Z.to_nat i)).
Proof.
  intros Hi. unfold deref.
  destruct (Z.ltb_spec i 0) as [H|_]; [lia|].
  rewrite list_lookup_fmap, lookup_seq_lt by lia. reflexivity.
Qed.

(** A build that returns normally passed the dimension check and filled
    the table. *)
Lemma Create_Value t0 cube sn so t :
  Create t0 cube sn so = (t, Value ()) ->
  CheckDimension (table t0) cube = true /\
  table t = CreateTableEntries cube sn so (fst (SetDimension (table t0) cube)).
Proof.
  unfold Create, SetDimension.
  destruct (CheckDimension (table t0) cube); simpl; intros E.
  - inversion E. split; reflexivity.
  - discriminate.
Qed.

Lemma Create_vertices t0 cube sn so t :
  (MaxNumVertices (table t0) <= 30)%Z ->
  Create t0 cube sn so = (t, Value ()) -> NumVertices cube <= 30.
Proof.
  intros Hmax E. apply Create_Value in E. destruct E as [C _].
  unfold CheckDimension in C. apply Z.leb_le in C. lia.
Qed.

Lemma CreateTableEntries_entry cube sn so t (it : Z) :
  (0 <= it < 2 ^ Z.of_nat (NumVertices cube))%Z ->
  deref (entry (CreateTableEntries cube sn so t)) it
  = Value (create_table_entry cube sn so it).
Proof.
  intros Hit. unfold CreateTableEntries. cbn [entry].
  rewrite deref_fmap_seq by (rewrite Nat2Z.inj_pow; exact Hit).
  rewrite Z2Nat.id by lia. reflexivity.
Qed.

Lemma sign_class_positive cube it v :
  v < NumVertices cube -> sign_class cube it true v = Z.testbit it (Z.of_nat v).
Proof.
  intros Hv. unfold sign_class.
  destruct (Nat.ltb_spec v (NumVertices cube)); [|lia].
  destruct (Z.testbit it (Z.of_nat v)); reflexivity.
Qed.

(** The stored flag of an edge is the sign test on its endpoints. *)
Lemma edge_is_bipolar_testbit cube it so ie :
  cube_wf cube -> ie < NumEdges cube ->
  edge_is_bipolar cube
    (fst (sign_components cube (FIND_COMPONENT_new cube) it true so)) ie
  = xorb (Z.testbit it (Z.of_nat (EdgeEndpoint cube ie 0)))
         (Z.testbit it (Z.of_nat (EdgeEndpoint cube ie 1))).
Proof.
  intros Hwf Hie. unfold edge_is_bipolar.
  destruct (sign_components_spec cube (FIND_COMPONENT_new cube) it true so eq_refl)
    as [_ [FE _]].
  rewrite !FE, !sign_class_positive by (apply (wf_endpoint cube Hwf); lia).
  reflexivity.
Qed.

Lemma IsBipolar_built cube sn so t (it : Z) (ke : nat) :
  cube_wf cube ->
  (0 <= it < 2 ^ Z.of_nat (NumVertices cube))%Z -> ke < NumEdges cube ->
  IsBipolar (CreateTableEntries cube sn so t) it (Z.of_nat ke)
  = Value (xorb (Z.testbit it (Z.of_nat (EdgeEndpoint cube ke 0)))
                (Z.testbit it (Z.of_nat (EdgeEndpoint cube ke 1)))).
Proof.
  intros Hwf Hit Hke. unfold IsBipolar.
  rewrite CreateTableEntries_entry by exact Hit.
  cbn [bind_outcome create_table_entry is_bipolar].
  rewrite deref_fmap_seq by lia. rewrite Nat2Z.id.
  rewrite edge_is_bipolar_testbit by assumption. reflexivity.
Qed.

(** C1.  After a successful build, for every table index [it] in
    [[0, 2^V)] and every cube edge [ke], [IsBipolar(it, ke)] is true if and
    only if [IsPositive] differs on the two endpoints of the edge. *)
Theorem IsBipolar_sign_test (t0 t : ISODUAL_CUBE_TABLE) (cube : CUBE_FACE_INFO)
  (separate_neg separate_opposite : bool) (it : Z) (ke : nat) :
  cube_wf cube -> (MaxNumVertices (table t0) <= 30)%Z ->
  Create t0 cube separate_neg separate_opposite = (t, Value ()) ->
  (0 <= it < 2 ^ Z.of_nat (NumVertices cube))%Z -> ke < NumEdges cube ->
  IsBipolar (table t) it (Z.of_nat ke)
  = Value (xorb (IsPositive it (Z.of_nat (EdgeEndpoint cube ke 0)))
                (IsPositive it (Z.of_nat (EdgeEndpoint cube ke 1)))).
Proof.
  intros Hwf Hmax Hc Hit Hke.
  pose proof (Create_vertices _ _ _ _ _ Hmax Hc) as HV.
  apply Create_Value in Hc. destruct Hc as [_ ->].
  rewrite IsBipolar_built by assumption.
  pose proof (wf_endpoint cube Hwf ke 0 Hke ltac:(lia)).
  pose proof (wf_endpoint cube Hwf ke 1 Hke ltac:(lia)).
  rewrite !IsPositive_testbit by lia. reflexivity.
Qed.

Lemma IsBipolar_sign_test_witness :
  IsBipolar (table (fst (Create (ISODUAL_CUBE_TABLE_new 20) square false false)))
    5 (Z.of_nat 1)
  = Value (xorb (IsPositive 5 (Z.of_nat (EdgeEndpoint square 1 0)))
                (IsPositive 5 (Z.of_nat (EdgeEndpoint square 1 1)))).
Proof.
  apply (IsBipolar_sign_test (ISODUAL_CUBE_TABLE_new 20) _ square false false 5 1).
  - exact square_wf.
  - simpl. lia.
  - reflexivity.
  - simpl. lia.
  - simpl. lia.
Defined.

(** The isosurface vertex stored for a bipolar edge is one of the patches
    of the positive class. *)
Lemma edge_incident_isovertex_range cube it so ie :
  cube_wf cube -> NumVertices cube <= 30 -> ie < NumEdges cube ->
  edge_is_bipolar cube
    (fst (sign_components cube (FIND_COMPONENT_new cube) it true so)) ie = true ->
  (0 <= edge_incident_isovertex cube
          (fst (sign_components cube (FIND_COMPONENT_new cube) it true so)) ie
     < Z.of_nat (snd (sign_components cube (FIND_COMPONENT_new cube) it true so)))%Z.
Proof.
  intros Hwf HV Hie Hb. unfold edge_incident_isovertex. rewrite Hb.
  destruct (sign_components_spec cube (FIND_COMPONENT_new cube) it true so eq_refl)
    as [_ [FE [Hrange [Hle _]]]].
  set (fcp := fst (sign_components cube (FIND_COMPONENT_new cube) it true so)) in *.
  set (n := snd (sign_components cube (FIND_COMPONENT_new cube) it true so)) in *.
  assert (Hp : exists iv,
    (if VertexFlag fcp (EdgeEndpoint cube ie 0)
     then EdgeEndpoint cube ie 0 else EdgeEndpoint cube ie 1) = iv /\
    sign_class cube it true iv = true).
  { unfold edge_is_bipolar in Hb. rewrite !FE in *.
    destruct (sign_class cube it true (EdgeEndpoint cube ie 0)) eqn:E0.
    - exists (EdgeEndpoint cube ie 0). split; [reflexivity | exact E0].
    - exists (EdgeEndpoint cube ie 1). split; [reflexivity|].
      simpl in Hb. exact Hb. }
  destruct Hp as [iv [-> Hiv]]. specialize (Hrange iv Hiv).
  unfold to_uchar. rewrite Z.mod_small; lia.
Qed.

(** C2.  After a successful build, for every table index [it] in
    [[0, 2^V)] and every cube edge [ke] that is bipolar in [it], the stored
    incident isosurface vertex is in range:
    [0 <= IncidentIsoVertex(it, ke) < NumIsoVertices(it)], whatever the
    dimension and the two policy flags. *)
Theorem IncidentIsoVertex_range (t0 t : ISODUAL_CUBE_TABLE) (cube : CUBE_FACE_INFO)
  (separate_neg separate_opposite : bool) (it : Z) (ke : nat) :
  cube_wf cube -> (MaxNumVertices (table t0) <= 30)%Z ->
  Create t0 cube separate_neg separate_opposite = (t, Value ()) ->
  (0 <= it < 2 ^ Z.of_nat (NumVertices cube))%Z -> ke < NumEdges cube ->
  IsBipolar (table t) it (Z.of_nat ke) = Value true ->
  exists iv n : Z,
    IncidentIsoVertex (table t) it (Z.of_nat ke) = Value iv /\
    NumIsoVertices (table t) it = Value n /\
    (0 <= iv < n)%Z.
Proof.
  intros Hwf Hmax Hc Hit Hke Hb.
  pose proof (Create_vertices _ _ _ _ _ Hmax Hc) as HV.
  apply Create_Value in Hc. destruct Hc as [_ Ht]. rewrite Ht in *. clear Ht.
  unfold IsBipolar, IncidentIsoVertex, NumIsoVertices in *.
  rewrite CreateTableEntries_entry in * by exact Hit.
  cbn [bind_outcome create_table_entry is_bipolar incident_isovertex num_vertices]
    in *.
  rewrite !deref_fmap_seq in * by lia. rewrite Nat2Z.id in *.
  inversion Hb as [Hb']. rewrite Hb'.
  pose proof (edge_incident_isovertex_range cube it separate_opposite ke
                Hwf HV Hke Hb') as R.
  destruct (sign_components_spec cube (FIND_COMPONENT_new cube) it true
              separate_opposite eq_refl) as [Hn [_ [_ [Hle _]]]].
  set (rp := sign_components cube (FIND_COMPONENT_new cube) it true
               separate_opposite) in *.
  assert (Hneg : (if separate_neg
                  then snd (sign_components cube (fst rp) it false separate_opposite)
                  else 0) <= NumVertices cube).
  { destruct separate_neg; [|lia].
    apply (sign_components_spec cube (fst rp) it false separate_opposite Hn). }
  eexists. eexists. split; [reflexivity | split; [reflexivity|]].
  rewrite to_int_id by (unfold int_range, INT_MIN, INT_MAX; lia).
  lia.
Qed.

Lemma IncidentIsoVertex_range_witness :
  exists iv n : Z,
    IncidentIsoVertex
      (table (fst (Create (ISODUAL_CUBE_TABLE_new 20) square true true)))
      5 (Z.of_nat 1) = Value iv /\
    NumIsoVertices
      (table (fst (Create (ISODUAL_CUBE_TABLE_new 20) square true true))) 5
    = Value n /\
    (0 <= iv < n)%Z.
Proof.
  apply (IncidentIsoVertex_range (ISODUAL_CUBE_TABLE_new 20) _ square true true 5 1).
  - exact square_wf.
  - simpl. lia.
  - reflexivity.
  - simpl. lia.
  - simpl. lia.
  - vm_compute. reflexivity.
Defined.

(** ** The all-inside index *)

Lemma all_inside_testbit (V v : nat) :
  v < V -> Z.testbit (2 ^ Z.of_nat V - 1) (Z.of_nat v) = true.
Proof.
  intros Hv. replace (2 ^ Z.of_nat V - 1)%Z with (Z.ones (Z.of_nat V))
    by (rewrite Z.ones_equiv; lia).
  apply Z.ones_spec_low. lia.
Qed.

(** ** A refused dimension *)

(** C9, amended.  Building a table for a cube with more vertices than
    [MaxNumVertices] fails with [DimensionError] and leaves the table
    unallocated: [IsTableAllocated] is false and [entry] is null.  The
    accessors make no check of this: on such a table they read through
    the null pointer, which is undefined behaviour, and they never throw
    [NotBuiltError]. *)
Theorem Create_refused (t0 : ISODUAL_CUBE_TABLE) (cube : CUBE_FACE_INFO)
  (separate_neg separate_opposite : bool) :
  (MaxNumVertices (table t0) < Z.of_nat (NumVertices cube))%Z ->
  snd (Create t0 cube separate_neg separate_opposite) = Throw DimensionError /\
  IsTableAllocated (table (fst (Create t0 cube separate_neg separate_opposite)))
  = false /\
  entry (table (fst (Create t0 cube separate_neg separate_opposite))) = None /\
  (forall it ke : Z,
     NumIsoVertices
       (table (fst (Create t0 cube separate_neg separate_opposite))) it
     = Undefined /\
     IncidentIsoVertex
       (table (fst (Create t0 cube separate_neg separate_opposite))) it ke
     = Undefined /\
     IsBipolar
       (table (fst (Create t0 cube separate_neg separate_opposite))) it ke
     = Undefined).
Proof.
  intros Hmax. unfold Create, SetDimension, CheckDimension.
  destruct (Z.leb_spec (Z.of_nat (NumVertices cube)) (MaxNumVertices (table t0)));
    [lia|].
  simpl. repeat split; reflexivity.
Qed.

Lemma Create_refused_witness :
  snd (Create (ISODUAL_CUBE_TABLE_new 3) square false false) = Throw DimensionError /\
  IsTableAllocated (table (fst (Create (ISODUAL_CUBE_TABLE_new 3) square false false)))
  = false /\
  entry (table (fst (Create (ISODUAL_CUBE_TABLE_new 3) square false false))) = None /\
  (forall it ke : Z,
     NumIsoVertices
       (table (fst (Create (ISODUAL_CUBE_TABLE_new 3) square false false))) it
     = Undefined /\
     IncidentIsoVertex
       (table (fst (Create (ISODUAL_CUBE_TABLE_new 3) square false false))) it ke
     = Undefined /\
     IsBipolar
       (table (fst (Create (ISODUAL_CUBE_TABLE_new 3) square false false))) it ke
     = Undefined).
Proof.
  apply (Create_refused (ISODUAL_CUBE_TABLE_new 3) square false false).
  simpl. lia.
Defined.

(** After the refused build of a square in a table limited to 3
    vertices, reading the number of isosurface vertices is undefined
    behaviour, not a [NotBuiltError]. *)
Lemma accessor_counterexample :
  snd (Create (ISODUAL_CUBE_TABLE_new 3) square false false) = Throw DimensionError /\
  NumIsoVertices (table (fst (Create (ISODUAL_CUBE_TABLE_new 3) square false false))) 0
  <> Throw NotBuiltError.
Proof.
  split; [reflexivity | vm_compute; discriminate].
Qed.

(** ** The functions on the square, evaluated *)

Example compute_complement_5 : compute_complement 5 16 = 10%Z.
Proof. reflexivity. Qed.

Example square_facet_bits : ComputeNumCubeFacetBits square 5 0 = (1, 1).
Proof. reflexivity. Qed.

Example square_active_facets :
  ComputeNumActiveCubeFacets square 5 = 4 /\ ComputeNumActiveCubeFacets square 3 = 2.
Proof. split; reflexivity. Qed.

(** Corners 0 and 2 positive: two components, labelled 1 and 2. *)
Example square_components_diagonal :
  component (fst (ComputeNumComponents square (FIND_COMPONENT_new square) 5 true))
  = [1; 0; 2; 0] /\
  snd (ComputeNumComponents square (FIND_COMPONENT_new square) 5 true) = 2.
Proof. split; reflexivity. Qed.

(** Corners 0 and 1 positive: one component; so are corners 2 and 3, the
    negative class. *)
Example square_components_side :
  snd (ComputeNumComponents square (FIND_COMPONENT_new square) 3 true) = 1 /\
  component (fst (ComputeNumComponents square (FIND_COMPONENT_new square) 3 false))
  = [0; 0; 1; 1].
Proof. split; reflexivity. Qed.

(** The flood fill goes round the square: three positive corners in a
    row are one component. *)
Example square_components_three :
  component (fst (ComputeNumComponents square (FIND_COMPONENT_new square) 13 true))
  = [1; 0; 1; 1].
Proof. reflexivity. Qed.

Example square_ambiguous :
  snd (is_cube_ambiguous square 5 (FIND_COMPONENT_new square)) = true /\
  snd (is_cube_ambiguous square 3 (FIND_COMPONENT_new square)) = false.
Proof. split; reflexivity. Qed.

(* ================================================================= *)
(** * Further properties of the header's code *)

(** ** Complement *)

(** X1.  In a table whose number of entries is an [int], [Complement]
    maps the table indices [[0, num_table_entries)] into themselves and
    reverses their order. *)
Theorem Complement_range_reverse (t : ISODUAL_TABLE) (it1 it2 : Z) :
  (num_table_entries t <= INT_MAX)%Z ->
  (0 <= it1 < num_table_entries t)%Z -> (0 <= it2 < num_table_entries t)%Z ->
  (0 <= Complement t it1 < num_table_entries t)%Z /\
  ((it1 < it2)%Z <-> (Complement t it2 < Complement t it1)%Z).
Proof.
  intros Hn H1 H2. unfold Complement.
  rewrite !compute_complement_exact by assumption. lia.
Qed.

Lemma Complement_range_reverse_witness :
  (0 <= Complement (CreateTableEntries square false false (ISODUAL_TABLE_new 20)) 3
     < num_table_entries (CreateTableEntries square false false (ISODUAL_TABLE_new 20)))%Z /\
  ((3 < 9)%Z <->
   (Complement (CreateTableEntries square false false (ISODUAL_TABLE_new 20)) 9
    < Complement (CreateTableEntries square false false (ISODUAL_TABLE_new 20)) 3)%Z).
Proof.
  apply Complement_range_reverse; vm_compute; repeat split; discriminate.
Defined.

(** X2.  [Complement] never sends two different [int] indices to one
    index, whatever the number of table entries, wrap-around of the
    narrowing to [int] included. *)
Theorem Complement_injective (t : ISODUAL_TABLE) (it1 it2 : Z) :
  int_range it1 -> int_range it2 ->
  it1 <> it2 -> Complement t it1 <> Complement t it2.
Proof.
  intros H1 H2 Hne E. apply Hne. unfold Complement in E.
  rewrite <- (compute_complement_involutive it1 (num_table_entries t) H1).
  rewrite <- (compute_complement_involutive it2 (num_table_entries t) H2).
  rewrite E. reflexivity.
Qed.

Lemma Complement_injective_witness :
  Complement (CreateTableEntries square false false (ISODUAL_TABLE_new 20)) 3
  <> Complement (CreateTableEntries square false false (ISODUAL_TABLE_new 20)) 12.
Proof.
  apply Complement_injective; [vm_compute; split; discriminate.. | discriminate].
Defined.

(** X3.  In a table of [2^V] entries, [V <= 30], the complement of a
    table index has the opposite bit at every vertex [v < V]: the
    positive vertices of an index are the negative vertices of its
    complement. *)
Theorem Complement_flips_vertex_bits (t : ISODUAL_TABLE) (V v : nat) (it : Z) :
  V <= 30 -> num_table_entries t = (2 ^ Z.of_nat V)%Z ->
  v < V -> (0 <= it < 2 ^ Z.of_nat V)%Z ->
  Z.testbit (Complement t it) (Z.of_nat v) = negb (Z.testbit it (Z.of_nat v)).
Proof.
  intros HV Hn Hv Hit. unfold Complement. rewrite Hn.
  apply complement_testbit; assumption.
Qed.

Lemma Complement_flips_vertex_bits_witness :
  Z.testbit (Complement (CreateTableEntries square false false (ISODUAL_TABLE_new 20)) 5)
    (Z.of_nat 1)
  = negb (Z.testbit 5 (Z.of_nat 1)).
Proof.
  apply (Complement_flips_vertex_bits _ 4 1 5); [lia | reflexivity | lia | lia].
Defined.

(** X4.  [Complement] does not check its argument: for a table size and
    an index that are non-negative [int]s, an index at or beyond the
    number of table entries gives a negative result. *)
Theorem Complement_out_of_range (t : ISODUAL_TABLE) (it : Z) :
  (0 <= num_table_entries t <= INT_MAX)%Z ->
  (num_table_entries t <= it <= INT_MAX)%Z ->
  Complement t it = (num_table_entries t - 1 - it)%Z /\ (Complement t it < 0)%Z.
Proof.
  unfold INT_MAX. intros Hn Hit.
  assert (E : Complement t it = (num_table_entries t - 1 - it)%Z).
  { unfold Complement, compute_complement.
    rewrite (to_long_id (num_table_entries t - 1)) by lia.
    rewrite to_long_id by lia.
    apply to_int_id. unfold int_range, INT_MIN, INT_MAX. lia. }
  rewrite E. split; [reflexivity | lia].
Qed.

Lemma Complement_out_of_range_witness :
  Complement (CreateTableEntries square false false (ISODUAL_TABLE_new 20)) 16
  = (num_table_entries (CreateTableEntries square false false (ISODUAL_TABLE_new 20))
     - 1 - 16)%Z /\
  (Complement (CreateTableEntries square false false (ISODUAL_TABLE_new 20)) 16 < 0)%Z.
Proof.
  apply Complement_out_of_range; vm_compute; repeat split; discriminate.
Defined.

(** ** The bits of a facet *)

Lemma count_facet_bit_total cube ientry ifacet (l : list nat) : forall st,
  fst (fold_left (count_facet_bit cube ientry ifacet) l st)
  + snd (fold_left (count_facet_bit cube ientry ifacet) l st)
  = fst st + snd st + length l.
Proof.
  induction l as [|j l IH]; intros st; simpl; [lia|].
  rewrite IH. unfold count_facet_bit.
  destruct (Z.land _ ientry =? 0)%Z; simpl; lia.
Qed.

(** X5.  [ComputeNumCubeFacetBits] sorts every vertex of the facet into
    one of its two counts: [num_zeros + num_ones] is the number of facet
    vertices, for every table index and every facet. *)
Theorem ComputeNumCubeFacetBits_total (cube : CUBE_FACE_INFO) (ientry : Z)
  (ifacet : nat) :
  fst (ComputeNumCubeFacetBits cube ientry ifacet)
  + snd (ComputeNumCubeFacetBits cube ientry ifacet)
  = NumFacetVertices cube.
Proof.
  unfold ComputeNumCubeFacetBits. rewrite count_facet_bit_total.
  rewrite length_seq. reflexivity.
Qed.

(** X6.  For a facet whose vertex numbers are below 31,
    [ComputeNumCubeFacetBits] returns in [num_ones] the number of facet
    vertices whose bit in [ientry] is 1 and in [num_zeros] the number of
    those whose bit is 0. *)
Theorem ComputeNumCubeFacetBits_counts (cube : CUBE_FACE_INFO) (ientry : Z)
  (ifacet : nat) :
  (forall j, j < NumFacetVertices cube -> FacetVertex cube ifacet j < 31) ->
  fst (ComputeNumCubeFacetBits cube ientry ifacet)
  = length (List.filter
              (fun j => negb (Z.testbit ientry (Z.of_nat (FacetVertex cube ifacet j))))
              (seq 0 (NumFacetVertices cube))) /\
  snd (ComputeNumCubeFacetBits cube ientry ifacet)
  = length (List.filter
              (fun j => Z.testbit ientry (Z.of_nat (FacetVertex cube ifacet j)))
              (seq 0 (NumFacetVertices cube))).
Proof.
  intros H. rewrite ComputeNumCubeFacetBits_count by exact H.
  split; reflexivity.
Qed.

Lemma ComputeNumCubeFacetBits_counts_witness :
  fst (ComputeNumCubeFacetBits square 6 1)
  = length (List.filter
              (fun j => negb (Z.testbit 6 (Z.of_nat (FacetVertex square 1 j))))
              (seq 0 (NumFacetVertices square))) /\
  snd (ComputeNumCubeFacetBits square 6 1)
  = length (List.filter
              (fun j => Z.testbit 6 (Z.of_nat (FacetVertex square 1 j)))
              (seq 0 (NumFacetVertices square))).
Proof.
  apply (ComputeNumCubeFacetBits_counts square 6 1).
  intros j Hj. apply square_shiftable; [simpl; lia | exact Hj].
Defined.

(** X7.  The counts of a facet depend on the bits of its own vertices
    only: two table indices that agree on every vertex of the facet get
    the same counts, hence the same activity of the facet. *)
Theorem ComputeNumCubeFacetBits_local (cube : CUBE_FACE_INFO) (ientry1 ientry2 : Z)
  (ifacet : nat) :
  (forall j, j < NumFacetVertices cube -> FacetVertex cube ifacet j < 31) ->
  (forall j, j < NumFacetVertices cube ->
     Z.testbit ientry1 (Z.of_nat (FacetVertex cube ifacet j))
     = Z.testbit ientry2 (Z.of_nat (FacetVertex cube ifacet j))) ->
  ComputeNumCubeFacetBits cube ientry1 ifacet
  = ComputeNumCubeFacetBits cube ientry2 ifacet /\
  IsCubeFacetActive cube ientry1 ifacet = IsCubeFacetActive cube ientry2 ifacet.
Proof.
  intros Hs Hb.
  assert (E : ComputeNumCubeFacetBits cube ientry1 ifacet
              = ComputeNumCubeFacetBits cube ientry2 ifacet).
  { rewrite !ComputeNumCubeFacetBits_count by exact Hs.
    f_equal; apply filter_length_ext; intros j Hj; apply in_seq in Hj;
      rewrite Hb by lia; reflexivity. }
  split; [exact E|]. unfold IsCubeFacetActive. rewrite E. reflexivity.
Qed.

(** Indices 1 and 5 differ at corner 2 only, which is not on facet 0 of
    the square. *)
Lemma ComputeNumCubeFacetBits_local_witness :
  ComputeNumCubeFacetBits square 1 0 = ComputeNumCubeFacetBits square 5 0 /\
  IsCubeFacetActive square 1 0 = IsCubeFacetActive square 5 0.
Proof.
  apply (ComputeNumCubeFacetBits_local square 1 5 0).
  - intros j Hj. apply square_shiftable; [simpl; lia | exact Hj].
  - intros j Hj. change (NumFacetVertices square) with 2 in Hj.
    destruct j as [|[|j]]; [reflexivity | reflexivity | lia].
Defined.

(** X8.  A facet with fewer than two vertices is never active, whatever
    the table index: the facets of a 1-dimensional cube are single
    vertices. *)
Theorem IsCubeFacetActive_small_facet (cube : CUBE_FACE_INFO) (ientry : Z)
  (ifacet : nat) :
  NumFacetVertices cube < 2 -> IsCubeFacetActive cube ientry ifacet = false.
Proof.
  intros H. unfold IsCubeFacetActive.
  pose proof (count_facet_bit_total cube ientry ifacet
                (seq 0 (NumFacetVertices cube)) (0, 0)) as T.
  fold (ComputeNumCubeFacetBits cube ientry ifacet) in T.
  rewrite length_seq in T.
  destruct (ComputeNumCubeFacetBits cube ientry ifacet) as [z o]. simpl in T.
  destruct z, o; simpl; try reflexivity. lia.
Qed.

Lemma IsCubeFacetActive_small_facet_witness :
  IsCubeFacetActive segment 1 0 = false.
Proof.
  apply (IsCubeFacetActive_small_facet segment 1 0). simpl. lia.
Defined.

(** ** The number of active facets *)

(** X9.  [ComputeNumActiveCubeFacets] never exceeds the number of facets
    of the cube. *)
Theorem ComputeNumActiveCubeFacets_le (cube : CUBE_FACE_INFO) (ientry : Z) :
  ComputeNumActiveCubeFacets cube ientry <= NumFacets cube.
Proof.
  rewrite ComputeNumActiveCubeFacets_filter.
  etransitivity; [apply List.filter_length_le|]. rewrite length_seq. reflexivity.
Qed.

Lemma land_zero_eqb (m : Z) : (Z.land m 0 =? 0)%Z = true.
Proof. rewrite Z.land_0_r. reflexivity. Qed.

Lemma count_facet_bit_zero cube ifacet (l : list nat) : forall st,
  snd (fold_left (count_facet_bit cube 0 ifacet) l st) = snd st.
Proof.
  induction l as [|j l IH]; intros st; simpl; [reflexivity|].
  rewrite IH. unfold count_facet_bit. rewrite land_zero_eqb. reflexivity.
Qed.

Lemma inactive_count (p : nat -> bool) (l : list nat) :
  (forall f, In f l -> p f = false) -> length (List.filter p l) = 0.
Proof.
  induction l as [|f l IH]; intros H; simpl; [reflexivity|].
  rewrite (H f) by (left; reflexivity). apply IH.
  intros g Hg. apply H. right. exact Hg.
Qed.

(** X10.  The configuration with every vertex negative (table index 0)
    has no active facet, for every geometry; in a table of [2^V] entries
    over a cube with [V <= 30] vertices, the configuration with every
    vertex positive (table index [2^V - 1]) has none either. *)
Theorem no_active_facet_at_extremes (cube : CUBE_FACE_INFO) :
  (forall f, IsCubeFacetActive cube 0 f = false) /\
  ComputeNumActiveCubeFacets cube 0 = 0 /\
  (cube_wf cube -> NumVertices cube <= 30 ->
   (forall f, f < NumFacets cube ->
      IsCubeFacetActive cube (2 ^ Z.of_nat (NumVertices cube) - 1) f = false) /\
   ComputeNumActiveCubeFacets cube (2 ^ Z.of_nat (NumVertices cube) - 1) = 0).
Proof.
  assert (A0 : forall f, IsCubeFacetActive cube 0 f = false).
  { intros f. unfold IsCubeFacetActive.
    pose proof (count_facet_bit_zero cube f (seq 0 (NumFacetVertices cube)) (0, 0)) as Z0.
    fold (ComputeNumCubeFacetBits cube 0 f) in Z0.
    destruct (ComputeNumCubeFacetBits cube 0 f) as [z o]. simpl in Z0. subst o.
    rewrite andb_false_r. reflexivity. }
  split; [exact A0 | split].
  - rewrite ComputeNumActiveCubeFacets_filter. apply inactive_count.
    intros f _. apply A0.
  - intros Hwf HV.
    assert (A1 : forall f, f < NumFacets cube ->
      IsCubeFacetActive cube (2 ^ Z.of_nat (NumVertices cube) - 1) f = false).
    { intros f Hf. unfold IsCubeFacetActive.
      rewrite ComputeNumCubeFacetBits_count
        by (intros j Hj; pose proof (wf_facet_vertex cube Hwf f j Hf Hj); lia).
      rewrite (inactive_count
        (fun j => negb (Z.testbit (2 ^ Z.of_nat (NumVertices cube) - 1)
                          (Z.of_nat (FacetVertex cube f j))))).
      - reflexivity.
      - intros j Hj. apply in_seq in Hj.
        rewrite all_inside_testbit; [reflexivity|].
        apply (wf_facet_vertex cube Hwf); lia. }
    split; [exact A1|].
    rewrite ComputeNumActiveCubeFacets_filter. apply inactive_count.
    intros f Hf. apply in_seq in Hf. apply A1. lia.
Qed.

Lemma no_active_facet_at_extremes_witness :
  (forall f, IsCubeFacetActive square 0 f = false) /\
  ComputeNumActiveCubeFacets square 0 = 0 /\
  (forall f, f < NumFacets square ->
     IsCubeFacetActive square (2 ^ Z.of_nat (NumVertices square) - 1) f = false) /\
  ComputeNumActiveCubeFacets square (2 ^ Z.of_nat (NumVertices square) - 1) = 0.
Proof.
  destruct (no_active_facet_at_extremes square) as [A [B C]].
  split; [exact A | split; [exact B|]].
  apply C; [exact square_wf | simpl; lia].
Defined.

(** ** The set of ambiguous facets *)

(** X11.  [IsFacetAmbiguous(it, jf)] reads bit [jf] of
    [AmbiguousFacetBits(it)], for every facet number [jf] that [1L] can
    be shifted by, [0 <= jf <= 62]; like [AmbiguousFacetBits] it is
    undefined where the table has no entry [it]. *)
Theorem IsFacetAmbiguous_bit (t : ISODUAL_CUBE_TABLE_AMBIG) (it jf : Z) :
  (0 <= jf <= 62)%Z ->
  IsFacetAmbiguous t it jf
  = bind_outcome (AmbiguousFacetBits t it) (fun s => Value (Z.testbit s jf)).
Proof.
  intros Hjf. unfold IsFacetAmbiguous, AmbiguousFacetBits.
  destruct (deref (ambiguous_facet t) it) as [s| |]; simpl; try reflexivity.
  f_equal. rewrite Z.shiftl_1_l.
  rewrite to_long_id.
  - rewrite Z.land_comm, land_pow2_eqb by lia. apply negb_involutive.
  - assert (2 ^ jf <= 2 ^ 62)%Z by (apply Z.pow_le_mono_r; lia).
    assert (0 < 2 ^ jf)%Z by (apply Z.pow_pos_nonneg; lia). lia.
Qed.

Lemma IsFacetAmbiguous_bit_witness :
  IsFacetAmbiguous
    (fst (Create_AMBIG (ISODUAL_CUBE_TABLE_AMBIG_new 20) square false false)) 5 2
  = bind_outcome
      (AmbiguousFacetBits
         (fst (Create_AMBIG (ISODUAL_CUBE_TABLE_AMBIG_new 20) square false false)) 5)
      (fun s => Value (Z.testbit s 2)).
Proof.
  apply IsFacetAmbiguous_bit. lia.
Defined.

(* ================================================================= *)
(** * Properties of the repositioning *)

Import IVOLDUAL.

(** ** Coordinates of one vertex *)

(** Storing the coordinates of vertex [c] leaves those of every other
    vertex as they are. *)
Lemma coord_at_store_other {A} (d : nat) (l : list A) (c v : nat) (coord : list A) :
  v <> c -> coord_at d (store_coord d l c coord) v = coord_at d l v.
Proof.
  intros Hne. unfold coord_at, store_coord. apply list_eq. intros i.
  destruct (Nat.lt_ge_cases i d) as [Hi|Hi].
  - rewrite !lookup_take_lt, !lookup_drop by exact Hi.
    assert (Hlen : length (take d coord) <= d) by (rewrite length_take; lia).
    destruct (Nat.lt_ge_cases v c) as [Hvc|Hvc].
    + apply list_lookup_inserts_lt. nia.
    + apply list_lookup_inserts_ge. nia.
  - rewrite !lookup_take_ge by exact Hi. reflexivity.
Qed.

Lemma fold_left_coord_at {A} (f : list A -> nat -> list A) (d v : nat) (l : list nat) :
  forall c,
  (forall c' cur, In cur l -> coord_at d (f c' cur) v = coord_at d c' v) ->
  coord_at d (fold_left f l c) v = coord_at d c v.
Proof.
  induction l as [|cur l IH]; intros c H; simpl; [reflexivity|].
  rewrite IH by (intros c' x Hx; apply H; right; exact Hx).
  apply H. left. reflexivity.
Qed.

Lemma fold_left_fixed {A B} (f : A -> B -> A) (l : list B) (a : A) :
  (forall b, In b l -> f a b = a) -> fold_left f l a = a.
Proof.
  induction l as [|b l IH]; intros H; simpl; [reflexivity|].
  rewrite (H b) by (left; reflexivity). apply IH.
  intros x Hx. apply H. right. exact Hx.
Qed.

Section SmoothProperties.

Variable ops : COORD_OPS.
Variable ivoldual_table : IVOLDUAL_CUBE_TABLE.
Variable vertex_adjacency_list : IVOL_VERTEX_ADJACENCY_LIST.
Variable ivolv_list : list DUAL_IVOLVERT.
Variable laplacian_smooth_limit : FLOAT ops.

Local Abbreviation add_neighbor' :=
  (add_neighbor ops ivoldual_table vertex_adjacency_list ivolv_list
     laplacian_smooth_limit).
Local Abbreviation sum_neighbors' :=
  (sum_neighbors ops ivoldual_table vertex_adjacency_list ivolv_list
     laplacian_smooth_limit).
Local Abbreviation smooth_vertex' :=
  (smooth_vertex ops ivoldual_table vertex_adjacency_list ivolv_list
     laplacian_smooth_limit).
Local Abbreviation smooth_pass' :=
  (smooth_pass ops ivoldual_table vertex_adjacency_list ivolv_list
     laplacian_smooth_limit).

(** ** The loop over the adjacent vertices *)

Lemma add_neighbor_count vertex_coord cur (l : list nat) : forall st,
  (0 <= snd st)%Z -> (snd st + Z.of_nat (length l) <= INT_MAX)%Z ->
  (snd (fst st) = true -> 1 <= snd st)%Z ->
  (snd st <= snd (fold_left (add_neighbor' vertex_coord cur) l st)
   <= snd st + Z.of_nat (length l))%Z /\
  (snd (fst (fold_left (add_neighbor' vertex_coord cur) l st)) = true ->
   1 <= snd (fold_left (add_neighbor' vertex_coord cur) l st))%Z.
Proof.
  induction l as [|k l IH]; intros st H0 Hmax Hflag.
  - simpl in *. split; [lia | exact Hflag].
  - change (length (k :: l)) with (S (length l)) in *.
    rewrite Nat2Z.inj_succ in *.
    destruct st as [[neigh_sum flag_moving] adj_count].
    cbn [fold_left add_neighbor fst snd] in *.
    destruct (not_same_surface ivoldual_table ivolv_list cur
                (AdjacentVertex vertex_adjacency_list cur k)).
    + destruct (IH (neigh_sum, flag_moving, adj_count)) as [R F];
        cbn [fst snd]; [lia | lia | exact Hflag |].
      cbn [fst snd] in R. split; [lia | exact F].
    + assert (E : to_int (adj_count + 1) = (adj_count + 1)%Z).
      { apply to_int_id. unfold int_range, INT_MIN, INT_MAX in *. lia. }
      rewrite E.
      match goal with
      | |- context [fold_left _ l ?s] => destruct (IH s) as [R F]
      end; cbn [fst snd]; [lia | lia | intros _; lia |].
      cbn [fst snd] in R. split; [lia | exact F].
Qed.

Lemma add_neighbor_flag vertex_coord cur (l : list nat) : forall st,
  snd (fst st) = false ->
  (forall k, In k l ->
     not_same_surface ivoldual_table ivolv_list cur
       (AdjacentVertex vertex_adjacency_list cur k) = false ->
     float_lt ops
       (compute_distance ops 3 (coord_at 3 vertex_coord cur)
          (coord_at 3 vertex_coord (AdjacentVertex vertex_adjacency_list cur k)))
       laplacian_smooth_limit = false) ->
  snd (fst (fold_left (add_neighbor' vertex_coord cur) l st)) = false.
Proof.
  induction l as [|k l IH]; intros st Hflag H; simpl; [exact Hflag|].
  apply IH; [|intros x Hx; apply H; right; exact Hx].
  destruct st as [[neigh_sum flag_moving] adj_count]. simpl in *. subst flag_moving.
  specialize (H k (or_introl eq_refl)).
  destruct (not_same_surface ivoldual_table ivolv_list cur
              (AdjacentVertex vertex_adjacency_list cur k)); simpl; [reflexivity|].
  rewrite H by reflexivity. reflexivity.
Qed.

(** A vertex without a short edge to an adjacent vertex of its surface
    stays where it is. *)
Lemma smooth_vertex_fixed skip vertex_coord cur :
  (forall k, k < NumAdjacent vertex_adjacency_list cur ->
     not_same_surface ivoldual_table ivolv_list cur
       (AdjacentVertex vertex_adjacency_list cur k) = false ->
     float_lt ops
       (compute_distance ops 3 (coord_at 3 vertex_coord cur)
          (coord_at 3 vertex_coord (AdjacentVertex vertex_adjacency_list cur k)))
       laplacian_smooth_limit = false) ->
  smooth_vertex' skip vertex_coord cur = vertex_coord.
Proof.
  intros H. unfold smooth_vertex.
  destruct (Bool.eqb _ skip); [reflexivity|].
  pose proof (add_neighbor_flag vertex_coord cur
    (seq 0 (NumAdjacent vertex_adjacency_list cur))
    (set_coord ops 3 (zero ops), false, 0%Z) eq_refl) as F.
  fold (sum_neighbors' vertex_coord cur) in F.
  destruct (sum_neighbors' vertex_coord cur) as [[neigh_sum flag_moving] adj_count].
  simpl in F. rewrite F; [reflexivity|].
  intros k Hk. apply H. apply in_seq in Hk. lia.
Qed.

(** Smoothing vertex [cur] leaves the coordinates of the other vertices
    as they are. *)
Lemma smooth_vertex_other skip vertex_coord cur v :
  v <> cur ->
  coord_at 3 (smooth_vertex' skip vertex_coord cur) v = coord_at 3 vertex_coord v.
Proof.
  intros Hne. unfold smooth_vertex.
  destruct (Bool.eqb _ skip); [reflexivity|].
  destruct (sum_neighbors' vertex_coord cur) as [[neigh_sum flag_moving] adj_count].
  destruct flag_moving; [|reflexivity].
  apply coord_at_store_other, Hne.
Qed.

End SmoothProperties.

(** ** laplacian_smooth_elength *)

(** X12.  In [laplacian_smooth_elength], when the loop over the adjacent
    vertices of a vertex ends with [flag_moving] set, [adj_count] is at
    least 1, so the sum of the neighbours is never divided by zero;
    [adj_count] is at most the number of adjacent vertices. *)
Theorem sum_neighbors_divisor (ops : COORD_OPS) (ivoldual_table : IVOLDUAL_CUBE_TABLE)
  (vertex_adjacency_list : IVOL_VERTEX_ADJACENCY_LIST)
  (ivolv_list : list DUAL_IVOLVERT) (laplacian_smooth_limit : FLOAT ops)
  (vertex_coord : list (COORD_TYPE ops)) (cur : nat) :
  mesh_wf vertex_adjacency_list ivolv_list vertex_coord ->
  cur < NumVertices vertex_adjacency_list ->
  (Z.of_nat (NumAdjacent vertex_adjacency_list cur) <= INT_MAX)%Z ->
  forall neigh_sum flag_moving adj_count,
    sum_neighbors ops ivoldual_table vertex_adjacency_list ivolv_list
      laplacian_smooth_limit vertex_coord cur
    = (neigh_sum, flag_moving, adj_count) ->
    (0 <= adj_count <= Z.of_nat (NumAdjacent vertex_adjacency_list cur))%Z /\
    (flag_moving = true -> 1 <= adj_count)%Z.
Proof.
  intros _ _ Hmax neigh_sum flag_moving adj_count E.
  pose proof (add_neighbor_count ops ivoldual_table vertex_adjacency_list
    ivolv_list laplacian_smooth_limit vertex_coord cur
    (seq 0 (NumAdjacent vertex_adjacency_list cur))
    (set_coord ops 3 (zero ops), false, 0%Z)) as C.
  fold (sum_neighbors ops ivoldual_table vertex_adjacency_list ivolv_list
          laplacian_smooth_limit vertex_coord cur) in C.
  rewrite E, length_seq in C. cbn [fst snd] in C.
  destruct C as [R F]; [lia | lia | discriminate |].
  split; [lia | exact F].
Qed.

Lemma path_mesh_wf : mesh_wf path_adjacency path_ivolv path_coord.
Proof.
  split.
  - simpl. lia.
  - simpl. lia.
  - intros cur k Hcur Hk. change (NumVertices path_adjacency) with 3 in *.
    destruct cur as [|[|[|cur]]]; simpl in *; lia.
Qed.

Lemma sum_neighbors_divisor_witness :
  (0 <= 2 <= Z.of_nat (NumAdjacent path_adjacency 1))%Z /\ (true = true -> 1 <= 2)%Z.
Proof.
  apply (sum_neighbors_divisor Z_ops path_table path_adjacency path_ivolv 30%Z
           path_coord 1 path_mesh_wf) with (neigh_sum := [10; 2; 0]%Z).
  - simpl. lia.
  - vm_compute. discriminate.
  - reflexivity.
Defined.

(** X13.  If no vertex has an edge shorter than [laplacian_smooth_limit]
    to an adjacent vertex of its surface, [laplacian_smooth_elength]
    leaves every coordinate as it is, whatever the number of
    iterations. *)
Theorem laplacian_smooth_elength_no_short_edge (ops : COORD_OPS)
  (ivoldual_table : IVOLDUAL_CUBE_TABLE)
  (vertex_adjacency_list : IVOL_VERTEX_ADJACENCY_LIST)
  (ivolv_list : list DUAL_IVOLVERT) (laplacian_smooth_limit : FLOAT ops)
  (vertex_coord : list (COORD_TYPE ops)) (iteration : Z) :
  mesh_wf vertex_adjacency_list ivolv_list vertex_coord ->
  (- 2 ^ 30 <= iteration < 2 ^ 30)%Z ->
  (forall cur k,
     cur < NumVertices vertex_adjacency_list ->
     k < NumAdjacent vertex_adjacency_list cur ->
     not_same_surface ivoldual_table ivolv_list cur
       (AdjacentVertex vertex_adjacency_list cur k) = false ->
     float_lt ops
       (compute_distance ops 3 (coord_at 3 vertex_coord cur)
          (coord_at 3 vertex_coord (AdjacentVertex vertex_adjacency_list cur k)))
       laplacian_smooth_limit = false) ->
  laplacian_smooth_elength ops ivoldual_table vertex_adjacency_list ivolv_list
    laplacian_smooth_limit vertex_coord iteration
  = vertex_coord.
Proof.
  intros _ _ H. unfold laplacian_smooth_elength.
  apply fold_left_fixed. intros it _. unfold smooth_pass.
  apply fold_left_fixed. intros cur Hcur. apply in_seq in Hcur.
  apply smooth_vertex_fixed. intros k Hk. apply H; [lia | exact Hk].
Qed.

Lemma laplacian_smooth_elength_no_short_edge_witness :
  laplacian_smooth_elength Z_ops path_table path_adjacency path_ivolv 10%Z
    path_coord 3
  = path_coord.
Proof.
  apply laplacian_smooth_elength_no_short_edge.
  - exact path_mesh_wf.
  - lia.
  - intros cur k Hcur Hk. change (NumVertices path_adjacency) with 3 in Hcur.
    destruct cur as [|[|[|cur]]]; [| | |lia];
      destruct k as [|[|k]]; simpl in Hk; try lia;
      vm_compute; intros; congruence.
Defined.

(** X14.  With [iteration = 0], [laplacian_smooth_elength] still makes
    one pass, and this pass skips the vertices on the lower or the upper
    isosurface: their coordinates are left as they are. *)
Theorem laplacian_smooth_elength_zero_iterations (ops : COORD_OPS)
  (ivoldual_table : IVOLDUAL_CUBE_TABLE)
  (vertex_adjacency_list : IVOL_VERTEX_ADJACENCY_LIST)
  (ivolv_list : list DUAL_IVOLVERT) (laplacian_smooth_limit : FLOAT ops)
  (vertex_coord : list (COORD_TYPE ops)) (v : nat) :
  mesh_wf vertex_adjacency_list ivolv_list vertex_coord ->
  v < NumVertices vertex_adjacency_list ->
  on_lower ivoldual_table ivolv_list v || on_upper ivoldual_table ivolv_list v = true ->
  laplacian_smooth_elength ops ivoldual_table vertex_adjacency_list ivolv_list
    laplacian_smooth_limit vertex_coord 0
  = smooth_pass ops ivoldual_table vertex_adjacency_list ivolv_list
      laplacian_smooth_limit vertex_coord 0 /\
  coord_at 3
    (laplacian_smooth_elength ops ivoldual_table vertex_adjacency_list ivolv_list
       laplacian_smooth_limit vertex_coord 0) v
  = coord_at 3 vertex_coord v.
Proof.
  intros _ _ Hs. split; [reflexivity|].
  change (laplacian_smooth_elength ops ivoldual_table vertex_adjacency_list
            ivolv_list laplacian_smooth_limit vertex_coord 0)
    with (smooth_pass ops ivoldual_table vertex_adjacency_list ivolv_list
            laplacian_smooth_limit vertex_coord 0).
  unfold smooth_pass. apply fold_left_coord_at. intros c cur _.
  destruct (Nat.eq_dec v cur) as [<-|Hne].
  - unfold smooth_vertex. rewrite Hs. reflexivity.
  - apply smooth_vertex_other, Hne.
Qed.

Lemma laplacian_smooth_elength_zero_iterations_witness :
  laplacian_smooth_elength Z_ops path_table path_adjacency path_ivolv 30%Z
    path_coord 0
  = smooth_pass Z_ops path_table path_adjacency path_ivolv 30%Z path_coord 0 /\
  coord_at 3
    (laplacian_smooth_elength Z_ops path_table path_adjacency path_ivolv 30%Z
       path_coord 0) 2
  = coord_at 3 path_coord 2.
Proof.
  apply laplacian_smooth_elength_zero_iterations.
  - exact path_mesh_wf.
  - simpl. lia.
  - reflexivity.
Defined.

(** X15.  A vertex all of whose adjacent vertices fail the same-surface
    test (the vertex is on the lower or the upper isosurface and the
    adjacent vertex is not), in particular a vertex with no adjacent
    vertex, is never moved by [laplacian_smooth_elength], whatever the
    number of iterations. *)
Theorem laplacian_smooth_elength_no_neighbor (ops : COORD_OPS)
  (ivoldual_table : IVOLDUAL_CUBE_TABLE)
  (vertex_adjacency_list : IVOL_VERTEX_ADJACENCY_LIST)
  (ivolv_list : list DUAL_IVOLVERT) (laplacian_smooth_limit : FLOAT ops)
  (vertex_coord : list (COORD_TYPE ops)) (iteration : Z) (v : nat) :
  mesh_wf vertex_adjacency_list ivolv_list vertex_coord ->
  (- 2 ^ 30 <= iteration < 2 ^ 30)%Z ->
  v < NumVertices vertex_adjacency_list ->
  (forall k, k < NumAdjacent vertex_adjacency_list v ->
     not_same_surface ivoldual_table ivolv_list v
       (AdjacentVertex vertex_adjacency_list v k) = true) ->
  coord_at 3
    (laplacian_smooth_elength ops ivoldual_table vertex_adjacency_list ivolv_list
       laplacian_smooth_limit vertex_coord iteration) v
  = coord_at 3 vertex_coord v.
Proof.
  intros _ _ _ H. unfold laplacian_smooth_elength.
  apply fold_left_coord_at. intros c it _. unfold smooth_pass.
  apply fold_left_coord_at. intros c' cur _.
  destruct (Nat.eq_dec v cur) as [<-|Hne].
  - rewrite smooth_vertex_fixed; [reflexivity|].
    intros k Hk Hsame. rewrite (H k Hk) in Hsame. discriminate.
  - apply smooth_vertex_other, Hne.
Qed.

Lemma laplacian_smooth_elength_no_neighbor_witness :
  coord_at 3
    (laplacian_smooth_elength Z_ops path_table path_adjacency path_ivolv 30%Z
       path_coord 2) 2
  = coord_at 3 path_coord 2.
Proof.
  apply laplacian_smooth_elength_no_neighbor.
  - exact path_mesh_wf.
  - lia.
  - simpl. lia.
  - intros k Hk. simpl in Hk. destruct k as [|k]; [reflexivity | lia].
Defined.
